(** * vscode-huff: the debugger utilities and the function-debugger webview

    A shallow embedding of [src/features/debugger/debuggerUtils.js] and of
    the webview script that drives the function selector, together with the
    properties their specification states about them.

    JavaScript strings are modelled as [string] (one character per code
    unit), objects used as dictionaries as [gmap] or, where the order of
    [Object.entries] matters, as association lists.  The host (file system,
    PATH, console, shown error messages) is an explicit [World] threaded
    through a small state-and-exception monad. *)

From Stdlib Require Import String Ascii List Bool Arith Lia.
From stdpp Require Import base option list gmap strings.

Import ListNotations.
Local Open Scope list_scope.

#[local] Arguments String.append : simpl nomatch.

(** ** JavaScript string primitives *)

Module JsString.

(** [s.slice(n)] *)
Fixpoint dropString (n : nat) (s : string) : string :=
  match n, s with
  | 0, _ => s
  | S _, EmptyString => EmptyString
  | S n', String _ s' => dropString n' s'
  end.

(** [s.startsWith(p)] *)
Fixpoint startsWith (p s : string) : bool :=
  match p, s with
  | EmptyString, _ => true
  | String _ _, EmptyString => false
  | String a p', String b s' => if Ascii.eqb a b then startsWith p' s' else false
  end.

(** [s.replace(pat, rep)] for a string pattern: only the first occurrence
    is replaced ([rep] holds no [$] pattern in the code modelled here). *)
Fixpoint replace (pat rep s : string) : string :=
  if startsWith pat s then String.append rep (dropString (String.length pat) s)
  else match s with
       | EmptyString => EmptyString
       | String c s' => String c (replace pat rep s')
       end.

(** [s.includes(pat)] *)
Fixpoint includes (pat s : string) : bool :=
  if startsWith pat s then true
  else match s with
       | EmptyString => false
       | String _ s' => includes pat s'
       end.

(** [pat] occurs somewhere in [s]. *)
Definition Occurs (pat s : string) : Prop :=
  exists a b, s = String.append a (String.append pat b).

(** Splitting at separator characters, dropping empty pieces: what the
    shell does to the words of a command line and what path resolution does
    to the components of a path. *)
Definition startsPiece (sep : ascii -> bool) (s : string) : bool :=
  match s with
  | EmptyString => false
  | String c _ => negb (sep c)
  end.

Fixpoint pieces (sep : ascii -> bool) (s : string) : list string :=
  match s with
  | EmptyString => []
  | String c s' =>
      if sep c then pieces sep s'
      else if startsPiece sep s' then
        match pieces sep s' with
        | t :: ts => String c t :: ts
        | [] => [String c EmptyString]
        end
      else String c EmptyString :: pieces sep s'
  end.

(** No character of [s] is a separator. *)
Fixpoint unbroken (sep : ascii -> bool) (s : string) : bool :=
  match s with
  | EmptyString => true
  | String c s' => negb (sep c) && unbroken sep s'
  end.

(** The characters [0-9a-fA-F]. *)
Definition hexDigit (c : ascii) : bool :=
  let n := nat_of_ascii c in
  ((48 <=? n) && (n <=? 57)) || ((97 <=? n) && (n <=? 102))
  || ((65 <=? n) && (n <=? 70)).

Definition hexDigits (s : string) : bool := unbroken (fun c => negb (hexDigit c)) s.

End JsString.

(** ** The host: file system, PATH, console and notifications *)

Module Host.

(** A path is the list of its components; [parsePath] resolves a path
    string (components are separated by [/], empty components vanish, [.]
    and [..] are taken as names; a relative path resolves against the root
    of the modelled tree). *)
Definition isSlash (c : ascii) : bool := Ascii.eqb c "/"%char.

Definition parsePath (s : string) : list string := JsString.pieces isSlash s.

(** Entries of the file system.  A directory carries its write permission;
    the [.git] directory of a repository is one opaque entry holding the
    history, each revision being the list of files it tracks. *)
Inductive node : Type :=
| File (content : string)
| Dir (writable : bool)
| Repo (revisions : list (list string)).

#[global] Instance node_eq_dec : EqDecision node.
Proof. solve_decision. Defined.

Inductive errno : Type := ENOENT | EEXIST | EACCES | ENOTDIR | EISDIR.

(** What JavaScript code can catch. *)
Inductive exn : Type :=
| FsError (code : errno) (syscall : string) (p : list string)
| ProcessError (status : nat)
| CommandNotFound (name : string).

Record World : Type := mkWorld {
  fs : gmap (list string) node;
  installed : gset string;     (* executables found on the PATH *)
  gitIdentity : bool;          (* user.name and user.email are configured *)
  console : list string;       (* console.log and console.error lines *)
  shown : list string          (* vscode.window.showErrorMessage *)
}.

Definition setFs (f : gmap (list string) node) (w : World) : World :=
  mkWorld f (installed w) (gitIdentity w) (console w) (shown w).

(** Computations that run against the host and either return or throw;
    effects made before a throw stay. *)
Definition M (A : Type) : Type := World -> (exn + A) * World.

Definition ret {A} (a : A) : M A := fun w => (inr a, w).

Definition throw {A} (e : exn) : M A := fun w => (inl e, w).

Definition bind {A B} (m : M A) (k : A -> M B) : M B :=
  fun w => match m w with
           | (inr a, w') => k a w'
           | (inl e, w') => (inl e, w')
           end.

(** [try { m } catch (e) { h e }] *)
Definition tryCatch {A} (m : M A) (h : exn -> M A) : M A :=
  fun w => match m w with
           | (inr a, w') => (inr a, w')
           | (inl e, w') => h e w'
           end.

Declare Scope host_scope.
Delimit Scope host_scope with host.
Notation "x <- m ;; k" := (bind m (fun x => k))
  (at level 100, m at next level, right associativity) : host_scope.
Notation "m ;; k" := (bind m (fun _ => k))
  (at level 100, right associativity) : host_scope.
Local Open Scope host_scope.

(** [console.log(line)] *)
Definition logged (line : string) (w : World) : World :=
  mkWorld (fs w) (installed w) (gitIdentity w) (console w ++ [line]) (shown w).

Definition consoleLog (line : string) : M unit :=
  fun w => (inr tt, logged line w).

(** [vscode.window.showErrorMessage(text)] *)
Definition showErrorMessage (text : string) : M unit :=
  fun w => (inr tt, mkWorld (fs w) (installed w) (gitIdentity w)
                            (console w) (shown w ++ [text])).

(** *** node:fs *)

Definition parent (p : list string) : list string := removelast p.

Definition under (p q : list string) : Prop := p `prefix_of` q.

(** A new entry can be made at [p] when its parent is a writable directory. *)
Definition creatable (f : gmap (list string) node) (syscall : string)
  (p : list string) : exn + unit :=
  match f !! parent p with
  | None => inl (FsError ENOENT syscall p)
  | Some (Dir true) => inr tt
  | Some (Dir false) => inl (FsError EACCES syscall p)
  | Some _ => inl (FsError ENOTDIR syscall p)
  end.

(** [fs.accessSync(path)]: the default mode tests for existence. *)
Definition accessSync (path : string) : M unit :=
  fun w => match fs w !! parsePath path with
           | Some _ => (inr tt, w)
           | None => (inl (FsError ENOENT "access" (parsePath path)), w)
           end.

(** [fs.mkdirSync(path)], not recursive. *)
Definition mkdirSync (path : string) : M unit :=
  fun w => let p := parsePath path in
           match fs w !! p with
           | Some _ => (inl (FsError EEXIST "mkdir" p), w)
           | None => match creatable (fs w) "mkdir" p with
                     | inr _ => (inr tt, setFs (<[p := Dir true]> (fs w)) w)
                     | inl e => (inl e, w)
                     end
           end.

(** [fs.writeFileSync(path, data)] *)
Definition writeFileSync (path data : string) : M unit :=
  fun w => let p := parsePath path in
           match fs w !! p with
           | Some (File _) => (inr tt, setFs (<[p := File data]> (fs w)) w)
           | Some _ => (inl (FsError EISDIR "open" p), w)
           | None => match creatable (fs w) "open" p with
                     | inr _ => (inr tt, setFs (<[p := File data]> (fs w)) w)
                     | inl e => (inl e, w)
                     end
           end.

(** Every entry at or below [p] sits in a writable directory, so that it
    can be unlinked. *)
Definition removable (f : gmap (list string) node) (p : list string) : Prop :=
  map_Forall (fun q _ => under p q ->
                         f !! parent q = Some (Dir true)) f.

#[global] Instance under_dec (p q : list string) : Decision (under p q).
Proof. unfold under. apply _. Defined.

#[global] Instance removable_dec f p : Decision (removable f p).
Proof. unfold removable. apply _. Defined.

(** No entry at or below [p] sits in a writable directory: nothing of the
    tree can be unlinked. *)
Definition stuck (f : gmap (list string) node) (p : list string) : Prop :=
  map_Forall (fun q _ => under p q ->
                         f !! parent q <> Some (Dir true)) f.

#[global] Instance stuck_dec f p : Decision (stuck f p).
Proof. unfold stuck. apply _. Defined.

(** [fs.rmSync(path, {recursive: true})]: a missing path is an error (the
    [force] option is not given); a tree that cannot be unlinked is reported
    as [EACCES].  The call unlinks entry by entry, in the order in which the
    directories list their entries, up to the first refusal.  That order is
    not part of this model: a tree of which only a part can be unlinked is
    left whole here, which is what the call does when the tree is [stuck].
    What is stated below about a refused removal is stated for such trees,
    or does not depend on what is left of the tree. *)
Definition rmSync (path : string) : M unit :=
  fun w => let p := parsePath path in
           match fs w !! p with
           | None => (inl (FsError ENOENT "rm" p), w)
           | Some _ =>
               if decide (removable (fs w) p)
               then (inr tt,
                     setFs (filter (fun e => ~ under p (fst e)) (fs w)) w)
               else (inl (FsError EACCES "rm" p), w)
           end.

(** The file system is a tree: whatever lies above an entry is a
    directory. *)
Definition wfFs (f : gmap (list string) node) : Prop :=
  forall p q n, f !! p = Some n -> under q p -> q <> p ->
                exists wr, f !! q = Some (Dir wr).

(** [d] is a directory that holds a repository with one revision, which
    tracks no file, and nothing else. *)
Definition freshRepo (w : World) (d : list string) : Prop :=
  fs w !! d = Some (Dir true)
  /\ fs w !! (d ++ [".git"]) = Some (Repo [[]])
  /\ forall q, under d q -> is_Some (fs w !! q) -> q = d \/ q = d ++ [".git"].

(** *** child_process *)

(** [execSync('git init && git commit --allow-empty -m "init"', {cwd})]:
    [git init] creates [.git] (or keeps an existing history), the commit
    adds one revision tracking what the previous one tracked (nothing in a
    new repository).  A non-zero exit status is thrown. *)
Definition execSyncGitInit (cwd : string) : M string :=
  fun w =>
    let d := parsePath cwd in
    let g := d ++ [".git"] in
    if negb (bool_decide ("git" ∈ installed w)) then (inl (ProcessError 127), w)
    else
      match fs w !! d with
      | Some (Dir wr) =>
          let initialised :=
            match fs w !! g with
            | Some (Repo revs) => Some (revs, w)
            | Some _ => None
            | None => if wr then Some ([], setFs (<[g := Repo []]> (fs w)) w)
                      else None
            end in
          match initialised with
          | None => (inl (ProcessError 128), w)
          | Some (revs, w1) =>
              if gitIdentity w1
              then (inr "",
                    setFs (<[g := Repo (revs ++ [List.last revs []])]> (fs w1)) w1)
              else (inl (ProcessError 128), w1)
          end
      | _ => (inl (FsError ENOENT "spawn" d), w)
      end.

(** The characters at which the shell splits the result of a command
    substitution into words. *)
Definition isIFS (c : ascii) : bool :=
  Ascii.eqb c " "%char || Ascii.eqb c "009"%char || Ascii.eqb c "010"%char.

Definition shellWords (s : string) : list string := JsString.pieces isIFS s.

(** The characters that the shell hands on as they are wherever they stand
    in a command line: letters, digits and [/ . _ - +]. *)
Definition isPlain (c : ascii) : bool :=
  let n := nat_of_ascii c in
  ((48 <=? n) && (n <=? 57)) || ((65 <=? n) && (n <=? 90))
  || ((97 <=? n) && (n <=? 122))
  || Ascii.eqb c "/"%char || Ascii.eqb c "."%char || Ascii.eqb c "_"%char
  || Ascii.eqb c "-"%char || Ascii.eqb c "+"%char.

(** Plain characters and spaces: a piece of a command line to which the
    shell does nothing but split it at the spaces. *)
Definition plainText (s : string) : bool :=
  JsString.unbroken (fun c => negb (isPlain c || Ascii.eqb c " "%char)) s.

(** One word of plain characters that is not taken for an option. *)
Definition plainWord (s : string) : bool :=
  match s with
  | EmptyString => false
  | String c _ => negb (Ascii.eqb c "-"%char)
                  && JsString.unbroken (fun c => negb (isPlain c)) s
  end.

(** The asterisk, the question mark and the opening bracket make a word a
    pattern, which pathname expansion replaces by the names it matches. *)
Definition isGlob (c : ascii) : bool :=
  Ascii.eqb c "*"%char || Ascii.eqb c "?"%char || Ascii.eqb c "["%char.

Definition globFree (s : string) : bool := JsString.unbroken isGlob s.

(** Between [w] and [w'] the entry at [q], the PATH, the git identity and
    the shown messages are the same. *)
Definition sameAt (q : list string) (w w' : World) : Prop :=
  fs w' !! q = fs w !! q
  /\ installed w' = installed w
  /\ gitIdentity w' = gitIdentity w
  /\ shown w' = shown w.

(** [fs.rmSync(path)] without options removes a file; a directory is
    refused. *)
Definition rmSyncFile (path : string) : M unit :=
  fun w => let p := parsePath path in
           match fs w !! p with
           | None => (inl (FsError ENOENT "rm" p), w)
           | Some (File _) =>
               match fs w !! parent p with
               | Some (Dir true) => (inr tt, setFs (delete p (fs w)) w)
               | _ => (inl (FsError EACCES "rm" p), w)
               end
           | Some _ => (inl (FsError EISDIR "rm" p), w)
           end.

End Host.

(** ** debuggerUtils.js *)

Module DebuggerUtils.
Import Host.
Local Open Scope host_scope.

(** The options [deployContract] reads from its [config] argument. *)
Record Config : Type := mkConfig {
  hevmContractAddress : string;
  hevmCaller : string;
  stateChecked : bool;
  storageChecked : bool;
  statePath : string;
  tempHevmCommandFilename : string
}.

Definition LF : string := String "010"%char EmptyString.

(** The template literal of [deployContract].  A backslash before a line
    break is a line continuation and leaves nothing in the string, so only
    the first and the last line break of the literal remain. *)
Definition deployCommand (bytecode : string) (config : Config) (cwd : string)
  : string :=
  "hevm exec" +:+ LF +:+
  "    --code " +:+ bytecode +:+ " " +:+
  "    --address " +:+ hevmContractAddress config +:+ " " +:+
  "    --create " +:+
  "    --caller " +:+ hevmCaller config +:+ " " +:+
  "    --gas 0xffffffff " +:+
  "    " +:+ (if stateChecked config || storageChecked config
              then "--state " +:+ cwd +:+ "/" +:+ statePath config
              else "") +:+ LF +:+
  "    ".

(** The two statements that make sure [cwd/cache] exists. *)
Definition ensureCache (cwd : string) : M unit :=
  tryCatch (accessSync (cwd +:+ "/cache"))
           (fun _ => mkdirSync (cwd +:+ "/cache")).

Definition writeHevmCommand (command file cwd : string) : M unit :=
  ensureCache cwd ;;
  writeFileSync (cwd +:+ "/" +:+ file) command.

Definition purgeCache (cwd : string) : M unit :=
  tryCatch (rmSync (cwd +:+ "/cache"))
           (fun _ => consoleLog "Cache didn't exist").

Definition resetStateRepo (statePath cwd : string) : M unit :=
  consoleLog "Creating state repository..." ;;
  let fullPath := cwd +:+ "/" +:+ statePath in
  (* delete old state *)
  tryCatch (rmSync fullPath)
           (fun _ => consoleLog "Cache didn't exist") ;;
  (* check if a cache folder exists *)
  ensureCache cwd ;;
  mkdirSync fullPath ;;
  execSyncGitInit fullPath ;;
  consoleLog "Created state repository...".

Definition checkStateRepoExistence (statePath cwd : string) : M unit :=
  resetStateRepo statePath cwd.

Section Engine.

(** The execution engine is an external program: [hevm argv] is what
    running it with the arguments [argv] does to the host and prints. *)
Variable hevm : list string -> M string.

(** [execSync("`cat " + path + "`")]: the shell runs the words of the file
    as a command line.  A path with blanks reaches [cat] as several
    arguments and is taken to fail; command lines that do not start with
    [hevm] are not modelled and are reported as not found.  The shell also
    parses the path inside the backquotes and replaces the words of the file
    that are patterns by the file names they match; neither is part of this
    model, which is the shell for a path that is a [plainWord] and a file
    that is [globFree]. *)
Definition execSyncCat (path : string) : M string :=
  fun w =>
    if negb (JsString.unbroken isIFS path) then (inl (ProcessError 1), w)
    else
      match fs w !! parsePath path with
      | Some (File content) =>
          match shellWords content with
          | [] => (inr "", w)
          | prog :: argv =>
              if String.eqb prog "hevm" && bool_decide ("hevm" ∈ installed w)
              then hevm argv w
              else (inl (ProcessError 127), w)
          end
      | _ => (inl (ProcessError 1), w)
      end.

Definition deployContract (bytecode : string) (config : Config) (cwd : string)
  : M string :=
  (if stateChecked config || storageChecked config
   then checkStateRepoExistence (statePath config) cwd
   else ret tt) ;;
  let command := deployCommand bytecode config cwd in
  (* cache command *)
  writeHevmCommand command (tempHevmCommandFilename config) cwd ;;
  (* execute command *)
  execSyncCat (cwd +:+ "/" +:+ tempHevmCommandFilename config).

End Engine.

(** [commandExists(name)]: the promise resolves when [name] is on the PATH
    and is rejected otherwise.  The library is not part of the sources; it
    answers for a file of that name in the working directory of the process
    first, which this model takes not to be there. *)
Definition commandExists (name : string) : M string :=
  fun w => if bool_decide (name ∈ installed w) then (inr name, w)
           else (inl (CommandNotFound name), w).

(** [`${e}`] *)
Definition exnText (e : exn) : string :=
  match e with
  | CommandNotFound _ => "null"
  | FsError _ _ _ => "Error"
  | ProcessError _ => "Error: Command failed"
  end.

Definition registerError (e : exn) (message : string) : M unit :=
  showErrorMessage (message +:+ LF +:+ "Error Message:" +:+ LF +:+ exnText e) ;;
  consoleLog (exnText e).

Definition hevmHint : string :=
  "Hevm installation required - install here: https://github.com/dapphub/dapptools#installation".

Definition huffcHint : string :=
  "Huffc compiler installation required - install here: https://github.com/huff-language/huff-rs".

Definition checkHevmInstallation : M bool :=
  tryCatch (commandExists "hevm" ;; ret true)
           (fun e => registerError e hevmHint ;; ret false).

Definition checkHuffcInstallation : M bool :=
  tryCatch (commandExists "huffc" ;; ret true)
           (fun e => registerError e huffcHint ;; ret false).

(** The values that end up in the array handed to [Promise.all]. *)
Inductive jsval : Type :=
| VBool (b : bool)
| VFunction (body : M bool).

(** [Boolean(v)]: a function object is truthy. *)
Definition truthy (v : jsval) : bool :=
  match v with
  | VBool b => b
  | VFunction _ => true
  end.

(** [Promise.all] awaits the promise of the call [checkHevmInstallation()]
    and passes the function [checkHuffcInstallation], which is not a
    promise, through as it is. *)
Definition checkInstallations : M bool :=
  hevmResult <- checkHevmInstallation ;;
  let results := [VBool hevmResult; VFunction checkHuffcInstallation] in
  ret (forallb (fun result => truthy result) results).

Definition formatEvenBytes (bytes : string) : string :=
  if negb (String.length bytes mod 2 =? 0)
  then JsString.replace "0x" "0x0" bytes
  else bytes.

Section Compiler.

(** The compiler is an external program: [huffc argv cwd] is what running
    it with the arguments [argv] in the directory [cwd] does to the host and
    prints. *)
Variable huffc : list string -> string -> M string.

(** [execSync(command, {cwd})] for the command lines of [compile] and
    [compileFromFile]: the shell splits the line into words and runs the
    first one.  Command lines that do not start with [huffc] are not
    modelled and are reported as not found.  Quotes, parentheses, [;], [&],
    [$], patterns and the like are parsed by the shell before it splits;
    that is not part of this model, which is the shell for a line that is
    [plainText]. *)
Definition execSyncIn (command cwd : string) : M string :=
  fun w =>
    match fs w !! parsePath cwd with
    | Some (Dir _) =>
        match shellWords command with
        | [] => (inr "", w)
        | prog :: argv =>
            if String.eqb prog "huffc" && bool_decide ("huffc" ∈ installed w)
            then huffc argv cwd w
            else (inl (ProcessError 127), w)
        end
    | _ => (inl (FsError ENOENT "spawn" (parsePath cwd)), w)
    end.

Definition compile (sourceDirectory fileName : string) : M string :=
  consoleLog "Compiling contract..." ;;
  let command := "huffc " +:+ fileName +:+ " --bytecode" in
  bytecode <- execSyncIn command sourceDirectory ;;
  ret ("0x" +:+ bytecode).

Definition compileFromFile (source filename cwd : string) : M string :=
  writeHevmCommand source filename cwd ;;
  let command := "huffc " +:+ filename +:+ " --bytecode" in
  bytecode <- execSyncIn command cwd ;;
  (* remove temp file *)
  rmSyncFile (cwd +:+ "/" +:+ filename) ;;
  ret ("0x" +:+ bytecode).

End Compiler.

Definition createTempFile (source filename cwd : string) : M unit :=
  writeFileSync (cwd +:+ "/" +:+ filename) source.

Definition writeMacro (cwd tempMacroFilename macro : string) : M unit :=
  writeFileSync (cwd +:+ "/" +:+ tempMacroFilename +:+ ".huff") macro.

End DebuggerUtils.

(** ** The webview script of the function debugger *)

Module Webview.

(** One value of the function table: a signature and its argument
    placeholders. *)
Record FnProps : Type := mkFn { fnSig : string; args : list string }.

(** The function table is an object keyed by function identifier; it is
    modelled by its entries in the order of [Object.entries] and [for-in].
    An entry is the pair [[key, value]]. *)
Abbreviation Entry := (string * FnProps)%type.

Abbreviation Table := (list (string * FnProps)).

(** The state kept through [vscode.setState]; [None] is a property that is
    absent or [undefined].  [argsValues] maps a function identifier to the
    values typed for it, keyed by the number of the input field. *)
Record WebviewState : Type := mkState {
  functionSelectors : option Table;
  selectedFunction : option Entry;
  argsValues : option (gmap string (gmap nat string))
}.

(** [{...state}] of a state that may be [undefined]. *)
Definition spread (state : option WebviewState) : WebviewState :=
  match state with
  | Some st => st
  | None => mkState None None None
  end.

Definition withFunctionSelectors (t : option Table) (st : WebviewState)
  : WebviewState :=
  mkState t (selectedFunction st) (argsValues st).

Definition withSelectedFunction (e : option Entry) (st : WebviewState)
  : WebviewState :=
  mkState (functionSelectors st) e (argsValues st).

Definition withArgsValues (a : option (gmap string (gmap nat string)))
  (st : WebviewState) : WebviewState :=
  mkState (functionSelectors st) (selectedFunction st) a.

(** *** The page: the [select] element, the list of inputs *)

(** ASCII whitespace, which the [text] of an [option] strips and
    collapses. *)
Definition isAsciiSpace (c : ascii) : bool :=
  Ascii.eqb c " "%char || Ascii.eqb c "009"%char || Ascii.eqb c "010"%char
  || Ascii.eqb c "012"%char || Ascii.eqb c "013"%char.

Fixpoint joinWords (l : list string) : string :=
  match l with
  | [] => ""
  | [w] => w
  | w :: rest => w +:+ " " +:+ joinWords rest
  end.

(** The [value] of an [option] that was given a [text] and no [value]
    attribute. *)
Definition optionValue (text : string) : string :=
  joinWords (JsString.pieces isAsciiSpace text).

Record Select : Type := mkSelect {
  options : list string;          (* the texts given to the options *)
  selectedIndex : option nat      (* [None] is the index -1 *)
}.

Definition emptySelect : Select := mkSelect [] None.

(** [select.add(option)]: a drop-down without a selected option selects
    its first one. *)
Definition addOption (text : string) (d : Select) : Select :=
  mkSelect (options d ++ [text])
           (match selectedIndex d with
            | None => Some 0
            | Some i => Some i
            end).

Fixpoint indexOfValue (v : string) (texts : list string) : option nat :=
  match texts with
  | [] => None
  | t :: rest => if String.eqb (optionValue t) v then Some 0
                 else option_map S (indexOfValue v rest)
  end.

(** [select.value = v]: the first option with that value is selected, and
    none when there is no such option. *)
Definition setSelectValue (v : string) (d : Select) : Select :=
  mkSelect (options d) (indexOfValue v (options d)).

(** [select.value] *)
Definition selectValue (d : Select) : string :=
  match selectedIndex d with
  | None => ""
  | Some i => match options d !! i with
              | Some t => optionValue t
              | None => ""
              end
  end.

(** What the script can see and change: the state held by the host, its
    two variables, the drop-down with the number of click listeners put on
    it, and the input fields of the list, each with its [id] and value. *)
Record Page : Type := mkPage {
  store : option WebviewState;
  varFunctionSelectors : option Table;
  varSelectedFunction : option Entry;
  dropdown : Select;
  listeners : nat;
  inputs : list (nat * string)
}.

(** Event handlers either return or throw a [TypeError]. *)
Inductive outcome : Type := Returned | Threw.

(** [vscode.setState(st)] *)
Definition setState (st : WebviewState) (pg : Page) : Page :=
  mkPage (Some st) (varFunctionSelectors pg) (varSelectedFunction pg)
         (dropdown pg) (listeners pg) (inputs pg).

Definition setDropdown (d : Select) (pg : Page) : Page :=
  mkPage (store pg) (varFunctionSelectors pg) (varSelectedFunction pg)
         d (listeners pg) (inputs pg).

Definition setInputs (l : list (nat * string)) (pg : Page) : Page :=
  mkPage (store pg) (varFunctionSelectors pg) (varSelectedFunction pg)
         (dropdown pg) (listeners pg) l.

(** *** The script *)

Definition cleanState (state : WebviewState) : WebviewState :=
  mkState (Some (match functionSelectors state with
                 | Some t => t
                 | None => []
                 end))
          (selectedFunction state)
          (Some ∅).

(** [entries.filter(([key, value]) => value.fnSig === sig)[0]] *)
Definition findEntry (table : Table) (sig : string) : option Entry :=
  head (List.filter (fun e : Entry => String.eqb (fnSig (snd e)) sig) table).

(** The value an input field is given: the persisted one when there is a
    map for the function and a truthy (non-empty) value for the field in
    it, the placeholder otherwise. *)
Definition prefill (av : gmap string (gmap nat string)) (key : string)
  (i : nat) (arg : string) : string :=
  match av !! key with
  | Some m => match m !! i with
              | Some v => if String.eqb v "" then arg else v
              | None => arg
              end
  | None => arg
  end.

(** The value last persisted for a function and an input field, if any. *)
Definition persistedValue (av : gmap string (gmap nat string)) (key : string)
  (i : nat) : option string :=
  match av !! key with
  | Some m => m !! i
  | None => None
  end.

(** Numbered fields, one for each argument, counting on from [i]. *)
Fixpoint fieldsFrom (fill : nat -> string -> string) (i : nat)
  (rest : list string) : list (nat * string) :=
  match rest with
  | [] => []
  | arg :: rest' => (S i, fill (S i) arg) :: fieldsFrom fill (S i) rest'
  end.

(** The loop of [createArgsInputs] over the arguments, [i] being the
    counter before the field is made. *)
Fixpoint renderArgs (key : string) (rest : list string) (i : nat) (pg : Page)
  : outcome * Page :=
  match rest with
  | [] => (Returned, pg)
  | arg :: rest' =>
      let id := S i in
      match store pg with
      | None => (Threw, pg)
      | Some state =>
          match argsValues state with
          | None => (Threw, pg)          (* state.argsValues is undefined *)
          | Some av =>
              renderArgs key rest' id
                (setInputs (inputs pg ++ [(id, prefill av key id arg)]) pg)
          end
      end
  end.

Definition createArgsInputs (value : string) (pg : Page) : outcome * Page :=
  (* empty clicks *)
  if String.eqb value "" then (Returned, pg)
  else
    match varFunctionSelectors pg with
    | None => (Threw, pg)                (* Object.entries(undefined) *)
    | Some table =>
        let funcProperties := findEntry table value in
        (* store the whole object *)
        let pg1 := mkPage (Some (withSelectedFunction funcProperties
                                   (spread (store pg))))
                          (varFunctionSelectors pg) funcProperties
                          (dropdown pg) (listeners pg) [] in
        match funcProperties with
        | None => (Threw, pg1)           (* funcProperties[1] *)
        | Some (key, props) => renderArgs key (args props) 0 pg1
        end
    end.

(** The listener put on an input field: the typed text is written into
    the persisted state at once. *)
Definition onInput (id : nat) (text : string) (pg : Page) : outcome * Page :=
  let pg1 := setInputs (map (fun f => if fst f =? id then (id, text) else f)
                            (inputs pg)) pg in
  match store pg1, varSelectedFunction pg1 with
  | Some state, Some (key, _) =>
      match argsValues state with
      | None => (Threw, pg1)
      | Some av =>
          let inner := match av !! key with Some m => m | None => ∅ end in
          (Returned,
           setState (withArgsValues (Some (<[key := <[id := text]> inner]> av))
                                    state) pg1)
      end
  | _, _ => (Threw, pg1)
  end.

(** [dropdown.click()]: every listener runs [createArgsInputs] on the
    current value; what a listener throws is reported and does not reach
    the caller. *)
Fixpoint dispatchClick (n : nat) (pg : Page) : Page :=
  match n with
  | 0 => pg
  | S n' => dispatchClick n' (snd (createArgsInputs (selectValue (dropdown pg)) pg))
  end.

Definition click (pg : Page) : Page := dispatchClick (listeners pg) pg.

Definition addOptionsToFunctionSelector (_functionSelectors : option Table)
  (selectedFunction : option Entry) (pg : Page) : Page :=
  let pg1 := mkPage (Some (withFunctionSelectors _functionSelectors
                             (spread (store pg))))
                    _functionSelectors (varSelectedFunction pg)
                    (dropdown pg)
                    (* listen for changes in the function that is selected *)
                    (S (listeners pg)) (inputs pg) in
  (* add each function as a drop down option *)
  let added := fold_left (fun d e => addOption (fnSig (snd e)) d)
                         (match _functionSelectors with
                          | Some t => t
                          | None => []
                          end)
                         (dropdown pg1) in
  let chosen := match selectedFunction with
                | Some e => setSelectValue (fnSig (snd e)) added
                | None => added
                end in
  click (setDropdown chosen pg1).

(** The page when the script starts: the host hands over the state it
    kept, the document is new. *)
Definition freshPage (persisted : option WebviewState) : Page :=
  mkPage persisted None None emptySelect 0 [].

(** The body of the script up to the registration of its handlers.  Of
    [oldState] only [functionSelectors] and [selectedFunction] are read; the
    state itself is next written by [addOptionsToFunctionSelector], as a
    copy of what the host holds with [functionSelectors] replaced. *)
Definition start (persisted : option WebviewState) : Page :=
  let pg := freshPage persisted in
  let oldState := match store pg with
                  | Some st => cleanState st
                  | None => mkState None None None
                  end in
  let functionSelectors' := functionSelectors oldState in
  let selectedFunction' := selectedFunction oldState in
  let pg1 := mkPage (store pg) functionSelectors' selectedFunction'
                    (dropdown pg) (listeners pg) (inputs pg) in
  (* load in saved functionSelectors *)
  addOptionsToFunctionSelector functionSelectors' selectedFunction' pg1.

(** The panel is hidden and shown again: the script starts anew on the
    state the host kept. *)
Definition hideAndShow (pg : Page) : Page := start (store pg).

(** The handler of the message [receiveContractInterface]. *)
Definition receiveContractInterface (data : Table) (pg : Page) : Page :=
  addOptionsToFunctionSelector (Some data) None pg.

(** The click on [Load interface] empties the drop-down (and posts
    [loadDocument]). *)
Definition loadInterfaceClicked (pg : Page) : Page :=
  setDropdown emptySelect pg.

(** The user picks the option of index [k]. *)
Definition userSelects (k : nat) (pg : Page) : Page :=
  click (setDropdown (mkSelect (options (dropdown pg)) (Some k)) pg).

(** The drop-down as the start of the script leaves it for a persisted
    table and selection, and the signature it shows. *)
Definition repopulated (table : Table) (sel : option Entry) : Select :=
  let added := fold_left (fun d e => addOption (fnSig (snd e)) d) table
                         emptySelect in
  match sel with
  | Some e => setSelectValue (fnSig (snd e)) added
  | None => added
  end.


(** The signatures of a table, in the order of its entries. *)
Definition signatures (table : Table) : list string :=
  map (fun e : Entry => fnSig (snd e)) table.

(** The tables the extension sends: no signature is empty, and none has
    whitespace that the text of an option would strip or collapse. *)
Definition wellFormedTable (table : Table) : Prop :=
  Forall (fun sig => sig <> "" /\ optionValue sig = sig) (signatures table).

(** The pages the script gets to: the panel is opened, a table arrives
    after a click on [Load interface], the user picks an option or types
    into a field, the panel is hidden and shown again. *)
Inductive Reachable : Page -> Prop :=
| reach_open : Reachable (start None)
| reach_load pg data :
    Reachable pg -> wellFormedTable data ->
    Reachable (receiveContractInterface data (loadInterfaceClicked pg))
| reach_select pg k :
    Reachable pg -> k < length (options (dropdown pg)) ->
    Reachable (userSelects k pg)
| reach_input pg id text :
    Reachable pg -> In id (map fst (inputs pg)) ->
    Reachable (snd (onInput id text pg))
| reach_show pg :
    Reachable pg -> Reachable (hideAndShow pg).


(** The message posted to the extension by [prepareDebugSession]: the
    selected function and, for each input field, the argument of its
    position ([None] when the function has no such argument) with the value
    of the field. *)
Inductive Message : Type :=
| StartDebug (selected : option Entry) (argsArr : list (option string * string)).

(** The handler of the click on [Start Debug]; [None] when it throws, in
    which case nothing is posted. *)
Definition prepareDebugSession (pg : Page) : option Message :=
  match inputs pg with
  | [] => Some (StartDebug (varSelectedFunction pg) [])
  | _ :: _ =>
      match varSelectedFunction pg with
      | None => None                     (* selectedFunction[1] *)
      | Some (key, props) =>
          Some (StartDebug (Some (key, props))
                  (imap (fun i f => (args props !! i, snd f)) (inputs pg)))
      end
  end.

End Webview.

(** ** Sample data *)

Module Samples.
Import Host DebuggerUtils.

Definition sampleConfig : Config :=
  mkConfig "0x00000000000000000000000000000000000000EF"
           "0x0000000000000000000000000000000000000420"
           true false "cache/huff_debug_hevm_state" "cache/hevmtemp".

Definition plainConfig : Config :=
  mkConfig "0x00000000000000000000000000000000000000EF"
           "0x0000000000000000000000000000000000000420"
           false false "cache/huff_debug_hevm_state" "cache/hevmtemp".

(** A workspace [/ws] on a machine with [git] and [hevm] but no [huffc]. *)
Definition workspace : World :=
  mkWorld (<[ ["ws"] := Dir true ]> (<[ [] := Dir true ]> ∅))
          {[ "git"; "hevm" ]} true [] [].

(** The same workspace with a cache directory in it. *)
Definition cachedWorkspace : World :=
  setFs (<[ ["ws"; "cache"] := Dir true ]> (fs workspace)) workspace.

(** A workspace that holds a cache directory but is itself read-only. *)
Definition lockedWorkspace : World :=
  mkWorld (<[ ["ws"; "cache"] := Dir true ]>
             (<[ ["ws"] := Dir false ]> (<[ [] := Dir true ]> ∅)))
          {[ "git"; "hevm" ]} true [] [].

(** The argument that follows [--state], if any. *)
Fixpoint stateArg (argv : list string) : option string :=
  match argv with
  | [] => None
  | a :: rest => if String.eqb a "--state" then head rest else stateArg rest
  end.

(** An engine that prints nothing and, given [--state dir], records one
    more revision in the repository of [dir]. *)
Definition recordingEngine (argv : list string) : M string :=
  fun w =>
    match stateArg argv with
    | Some dir =>
        let g := parsePath dir ++ [".git"] in
        match fs w !! g with
        | Some (Repo revs) => (inr "", setFs (<[g := Repo (revs ++ [[]])]> (fs w)) w)
        | _ => (inl (ProcessError 1), w)
        end
    | None => (inr "", w)
    end.

(** A compiler that prints the same bytecode for every file and leaves the
    host alone. *)
Definition constantCompiler (argv : list string) (cwd : string) : M string :=
  fun w => (inr "6000", w).

(** A compiler that fails on every file. *)
Definition failingCompiler (argv : list string) (cwd : string) : M string :=
  fun w => (inl (ProcessError 1), w).

(** The workspace on a machine without git, and on one where git has no
    identity configured. *)
Definition gitlessWorkspace : World :=
  mkWorld (fs workspace) {[ "hevm" ]} true [] [].

Definition anonymousWorkspace : World :=
  mkWorld (fs workspace) {[ "git"; "hevm" ]} false [] [].

(** A machine with [huffc] as well. *)
Definition fullWorkspace : World :=
  mkWorld (fs workspace) {[ "git"; "hevm"; "huffc" ]} true [] [].

(** The function table of a contract with [foo()] and [bar(uint256)]. *)
Definition barEntry : Webview.Entry := ("bar", Webview.mkFn "bar(uint256)" ["uint256"]).

Definition sampleTable : Webview.Table :=
  [("foo", Webview.mkFn "foo()" []); barEntry].

(** [bar(uint256)] is selected and [5] was typed into its field. *)
Definition typedState : Webview.WebviewState :=
  Webview.mkState (Some sampleTable) (Some barEntry)
                  (Some {[ "bar" := {[ 1 := "5" ]} ]}).

Definition pageOf (st : Webview.WebviewState) : Webview.Page :=
  Webview.mkPage (Some st) (Webview.functionSelectors st)
                 (Webview.selectedFunction st)
                 (Webview.mkSelect ["foo()"; "bar(uint256)"] (Some 1)) 1 [].

(** A new panel that has received the table. *)
Definition newPanel : Webview.Page :=
  Webview.receiveContractInterface sampleTable
    (Webview.loadInterfaceClicked (Webview.start None)).



End Samples.

(** * Properties *)

Module JsStringFacts.
Import JsString.

Lemma append_length (a b : string) :
  String.length (String.append a b) = String.length a + String.length b.
Proof. induction a as [|c a IH]; simpl; [reflexivity | now f_equal]. Qed.

Lemma startsWith_append (p s : string) : startsWith p (String.append p s) = true.
Proof.
  induction p as [|c p IH]; simpl; [reflexivity|].
  now rewrite Ascii.eqb_refl.
Qed.

Lemma startsWith_split (p s : string) :
  startsWith p s = true -> s = String.append p (dropString (String.length p) s).
Proof.
  revert s; induction p as [|c p IH]; intros s H; simpl in *.
  - reflexivity.
  - destruct s as [|d s]; [discriminate|].
    destruct (Ascii.eqb c d) eqn:E; [|discriminate].
    apply Ascii.eqb_eq in E; subst d.
    simpl. f_equal. now apply IH.
Qed.

Lemma includes_Occurs (pat s : string) : includes pat s = true <-> Occurs pat s.
Proof.
  split.
  - induction s as [|c s IH]; simpl; intros H.
    + destruct (startsWith pat "") eqn:E; [|discriminate].
      exists "", (dropString (String.length pat) ""). simpl.
      now apply startsWith_split.
    + destruct (startsWith pat (String c s)) eqn:E.
      * exists "", (dropString (String.length pat) (String c s)). simpl.
        now apply startsWith_split.
      * destruct (IH H) as (a & b & ->). now exists (String c a), b.
  - intros (a & b & ->). induction a as [|c a IH]; simpl.
    + destruct pat as [|p ps]; simpl.
      * now destruct b.
      * rewrite Ascii.eqb_refl, startsWith_append. reflexivity.
    + destruct (startsWith pat _); [reflexivity | exact IH].
Qed.

(** A replacement either finds nothing and returns its input, or trades one
    copy of the pattern for the replacement. *)
Lemma replace_no_match (pat rep s : string) :
  includes pat s = false -> replace pat rep s = s.
Proof.
  induction s as [|c s IH]; simpl.
  - destruct (startsWith pat ""); [discriminate | reflexivity].
  - destruct (startsWith pat (String c s)); [discriminate|].
    intros H. now rewrite IH.
Qed.

Lemma startsWith_length (p s : string) :
  startsWith p s = true ->
  String.length s = String.length p + String.length (dropString (String.length p) s).
Proof.
  intros H. apply startsWith_split in H.
  rewrite H at 1. apply append_length.
Qed.

Lemma replace_match_length (pat rep s : string) :
  includes pat s = true ->
  String.length (replace pat rep s) + String.length pat
  = String.length s + String.length rep.
Proof.
  induction s as [|c s IH]; simpl.
  - destruct (startsWith pat "") eqn:E; [|discriminate].
    intros _. apply startsWith_length in E.
    rewrite append_length. simpl in *. lia.
  - destruct (startsWith pat (String c s)) eqn:E.
    + intros _. apply startsWith_length in E.
      rewrite append_length. simpl in *. lia.
    + intros H. simpl. specialize (IH H). lia.
Qed.

(** *** Splitting into pieces *)

Lemma startsPiece_pieces sep (s : string) :
  startsPiece sep s = true -> pieces sep s <> [].
Proof.
  destruct s as [|c s]; simpl; [discriminate|].
  intros H. apply negb_true_iff in H. rewrite H.
  destruct (startsPiece sep s); [destruct (pieces sep s)|]; discriminate.
Qed.

Lemma startsPiece_append sep (a : string) (c : ascii) (b : string) :
  sep c = true -> startsPiece sep (a +:+ String c b) = startsPiece sep a.
Proof.
  intros H. destruct a as [|x a]; simpl; [now rewrite H | reflexivity].
Qed.

(** A separator between two strings keeps their pieces apart. *)
Lemma pieces_sep sep (a : string) (c : ascii) (b : string) :
  sep c = true ->
  pieces sep (a +:+ String c b) = pieces sep a ++ pieces sep b.
Proof.
  intros Hc. induction a as [|x a IH]; simpl.
  - now rewrite Hc.
  - destruct (sep x); [exact IH|].
    rewrite startsPiece_append by exact Hc. rewrite IH.
    destruct (startsPiece sep a) eqn:E; [|reflexivity].
    apply startsPiece_pieces in E.
    destruct (pieces sep a); [congruence | reflexivity].
Qed.

(** A non-empty string without separators is one piece. *)
Lemma pieces_unbroken sep (s : string) :
  unbroken sep s = true -> s <> "" -> pieces sep s = [s].
Proof.
  induction s as [|c s IH]; [congruence|].
  simpl. intros H _. apply andb_true_iff in H as [Hc Hs].
  apply negb_true_iff in Hc. rewrite Hc.
  destruct s as [|d s]; [reflexivity|].
  assert (Hd : startsPiece sep (String d s) = true).
  { simpl in *. now apply andb_true_iff in Hs as [-> _]. }
  rewrite Hd, IH by (trivial || discriminate). reflexivity.
Qed.

End JsStringFacts.

(** ** formatEvenBytes *)

Module FormatEvenBytesFacts.
Import JsString JsStringFacts DebuggerUtils.

Lemma odd_test (n : nat) : negb (n mod 2 =? 0) = Nat.odd n.
Proof.
  rewrite <- Nat.negb_even. f_equal.
  destruct (Nat.even n) eqn:E.
  - apply Nat.even_spec in E. destruct E as [k ->].
    apply Nat.eqb_eq. rewrite Nat.mul_comm. apply Nat.Div0.mod_mul.
  - apply Nat.eqb_neq. intros H.
    assert (Hn : Nat.even n = true).
    { apply Nat.even_spec. exists (n / 2).
      pose proof (Nat.div_mod_eq n 2). lia. }
    congruence.
Qed.

Lemma formatEvenBytes_prefixed (d : string) :
  formatEvenBytes ("0x" +:+ d)
  = "0x" +:+ (if Nat.odd (String.length d) then "0" +:+ d else d).
Proof.
  unfold formatEvenBytes. rewrite odd_test.
  change (String.length ("0x" +:+ d)) with (S (S (String.length d))).
  rewrite Nat.odd_succ_succ.
  destruct (Nat.odd (String.length d)); reflexivity.
Qed.

Lemma formatEvenBytes_even_fixed (s : string) :
  Nat.odd (String.length s) = false -> formatEvenBytes s = s.
Proof. intros H. unfold formatEvenBytes. now rewrite odd_test, H. Qed.

Lemma formatEvenBytes_length (s : string) :
  formatEvenBytes s = s \/ Nat.odd (String.length (formatEvenBytes s)) = false.
Proof.
  unfold formatEvenBytes. rewrite odd_test.
  destruct (Nat.odd (String.length s)) eqn:E; [|now left].
  destruct (includes "0x" s) eqn:I.
  - right. pose proof (replace_match_length "0x" "0x0" s I) as L.
    simpl in L.
    replace (String.length (replace "0x" "0x0" s)) with (S (String.length s)) by lia.
    rewrite Nat.odd_succ, <- Nat.negb_odd, E. reflexivity.
  - left. now apply replace_no_match.
Qed.

(** Padding keeps the digits hexadecimal. *)
Lemma formatEvenBytes_hexDigits (d : string) :
  hexDigits d = true ->
  exists d', formatEvenBytes ("0x" +:+ d) = "0x" +:+ d' /\ hexDigits d' = true.
Proof.
  intros H. rewrite formatEvenBytes_prefixed.
  destruct (Nat.odd (String.length d)); eauto.
Qed.

(** C6: on a string that starts with [0x] the result is [0x] followed by
    an even number of digits (the same digits, with one [0] in front when
    their number was odd); ["0xabc"] becomes ["0x0abc"], ["0xabcd"] stays,
    and formatting twice is the same as formatting once. *)
Theorem formatEvenBytes_even_digits :
  (forall d : string,
     exists d' : string,
       formatEvenBytes ("0x" +:+ d) = "0x" +:+ d'
       /\ Nat.even (String.length d') = true
       /\ (d' = d \/ d' = "0" +:+ d))
  /\ formatEvenBytes "0xabc" = "0x0abc"
  /\ formatEvenBytes "0xabcd" = "0xabcd"
  /\ (forall s : string, formatEvenBytes (formatEvenBytes s) = formatEvenBytes s).
Proof.
  split; [|split; [reflexivity | split; [reflexivity|]]].
  - intros d. rewrite formatEvenBytes_prefixed.
    destruct (Nat.odd (String.length d)) eqn:E.
    + exists ("0" +:+ d). repeat split.
      * change (String.length ("0" +:+ d)) with (S (String.length d)).
        rewrite Nat.even_succ. exact E.
      * now right.
    + exists d. repeat split.
      * rewrite <- Nat.negb_odd, E. reflexivity.
      * now left.
  - intros s. destruct (formatEvenBytes_length s) as [H | H].
    + now rewrite !H.
    + now apply formatEvenBytes_even_fixed.
Qed.

(** C10: a string of odd length in which [0x] does not occur is returned
    as it is, and so is still of odd length. *)
Theorem formatEvenBytes_unprefixed_odd (s : string) :
  Nat.odd (String.length s) = true ->
  ~ Occurs "0x" s ->
  formatEvenBytes s = s /\ Nat.odd (String.length (formatEvenBytes s)) = true.
Proof.
  intros Hodd Hno.
  assert (E : formatEvenBytes s = s).
  { unfold formatEvenBytes. rewrite odd_test, Hodd.
    apply replace_no_match.
    destruct (includes "0x" s) eqn:I; [|reflexivity].
    exfalso. apply Hno. now apply includes_Occurs. }
  now rewrite E.
Qed.

Lemma formatEvenBytes_unprefixed_odd_witness :
  formatEvenBytes "abc" = "abc"
  /\ Nat.odd (String.length (formatEvenBytes "abc")) = true.
Proof.
  apply (formatEvenBytes_unprefixed_odd "abc").
  - reflexivity.
  - intros H. apply includes_Occurs in H. vm_compute in H. discriminate.
Defined.

End FormatEvenBytesFacts.

(** ** The deploy command *)

Module DeployCommandFacts.
Import JsString JsStringFacts Host DebuggerUtils Samples.

Lemma shellWords_space (a b : string) :
  shellWords (a +:+ " " +:+ b) = shellWords a ++ shellWords b.
Proof. apply (pieces_sep isIFS a " "%char b eq_refl). Qed.

Lemma shellWords_LF (a b : string) :
  shellWords (a +:+ LF +:+ b) = shellWords a ++ shellWords b.
Proof. apply (pieces_sep isIFS a "010"%char b eq_refl). Qed.

Lemma shellWords_word (s : string) :
  unbroken isIFS s = true -> s <> "" -> shellWords s = [s].
Proof. apply pieces_unbroken. Qed.

Lemma deployCommand_shellWords (bytecode : string) (config : Config) (cwd : string) :
  shellWords (deployCommand bytecode config cwd)
  = ["hevm"; "exec"; "--code"] ++ shellWords bytecode
    ++ ["--address"] ++ shellWords (hevmContractAddress config)
    ++ ["--create"; "--caller"] ++ shellWords (hevmCaller config)
    ++ ["--gas"; "0xffffffff"]
    ++ (if stateChecked config || storageChecked config
        then "--state" :: shellWords (cwd +:+ "/" +:+ statePath config)
        else []).
Proof.
  unfold deployCommand.
  rewrite shellWords_LF.
  change ("    --code " +:+ ?r) with ("    --code" +:+ " " +:+ r).
  rewrite shellWords_space, shellWords_space.
  change ("    --address " +:+ ?r) with ("    --address" +:+ " " +:+ r).
  rewrite shellWords_space, shellWords_space.
  change ("    --create " +:+ "    --caller " +:+ ?r)
    with ("    --create     --caller" +:+ " " +:+ r).
  rewrite shellWords_space, shellWords_space.
  change ("    --gas 0xffffffff " +:+ "    " +:+ ?r)
    with ("    --gas 0xffffffff    " +:+ " " +:+ r).
  rewrite shellWords_space, shellWords_LF.
  destruct (stateChecked config || storageChecked config).
  - change ("--state " +:+ ?r) with ("--state" +:+ " " +:+ r).
    rewrite shellWords_space. vm_compute (shellWords "    ").
    rewrite app_nil_r. reflexivity.
  - reflexivity.
Qed.

(** C7: the shell sees the engine invoked as [hevm exec] with [--code] and
    the bytecode, [--address] and the contract address, [--create],
    [--caller] and the caller address, [--gas 0xffffffff] and, exactly when
    state or storage checking is on, [--state] followed by the state
    directory [cwd/statePath]; the flag is absent otherwise. *)
Theorem deployCommand_state_flag (bytecode : string) (config : Config) (cwd : string) :
  let argv := shellWords (deployCommand bytecode config cwd) in
  let enabled := stateChecked config || storageChecked config in
  argv = ["hevm"; "exec"; "--code"] ++ shellWords bytecode
         ++ ["--address"] ++ shellWords (hevmContractAddress config)
         ++ ["--create"; "--caller"] ++ shellWords (hevmCaller config)
         ++ ["--gas"; "0xffffffff"]
         ++ (if enabled
             then "--state" :: shellWords (cwd +:+ "/" +:+ statePath config)
             else [])
  /\ ("--state" ∉ shellWords bytecode ->
      "--state" ∉ shellWords (hevmContractAddress config) ->
      "--state" ∉ shellWords (hevmCaller config) ->
      ("--state" ∈ argv <-> enabled = true)).
Proof.
  intros argv enabled. subst argv.
  rewrite deployCommand_shellWords. fold enabled.
  split; [reflexivity|].
  intros Hb Ha Hc.
  rewrite !elem_of_app.
  destruct enabled; split; intros H; try reflexivity.
  - do 7 right. apply list_elem_of_here.
  - exfalso.
    repeat match goal with
           | H : _ \/ _ |- _ => destruct H
           | H : _ ∈ _ :: _ |- _ => apply elem_of_cons in H
           | H : _ ∈ [] |- _ => now apply elem_of_nil in H
           end; try discriminate; tauto.
  - discriminate.
Qed.

Lemma deployCommand_state_flag_witness :
  shellWords (deployCommand "0x6000" sampleConfig "/ws")
  = ["hevm"; "exec"; "--code"; "0x6000";
     "--address"; "0x00000000000000000000000000000000000000EF";
     "--create";
     "--caller"; "0x0000000000000000000000000000000000000420";
     "--gas"; "0xffffffff";
     "--state"; "/ws/cache/huff_debug_hevm_state"]
  /\ ("--state" ∈ shellWords (deployCommand "0x6000" sampleConfig "/ws")
      <-> true = true).
Proof.
  destruct (deployCommand_state_flag "0x6000" sampleConfig "/ws") as [E F].
  split.
  - exact E.
  - apply F; intros H; vm_compute in H;
      apply list_elem_of_singleton in H; discriminate.
Defined.

End DeployCommandFacts.

(** ** The host model *)

Module HostFacts.
Import JsString JsStringFacts Host.
Local Open Scope host_scope.

Lemma bind_inr {A B} (m : M A) (k : A -> M B) w b w' :
  bind m k w = (inr b, w') ->
  exists a w1, m w = (inr a, w1) /\ k a w1 = (inr b, w').
Proof.
  unfold bind. destruct (m w) as [[e|a] w1]; [discriminate|].
  intros H. now exists a, w1.
Qed.

Lemma bind_step {A B} (m : M A) (k : A -> M B) w a w1 :
  m w = (inr a, w1) -> bind m k w = k a w1.
Proof. unfold bind. now intros ->. Qed.

Lemma bind_throw {A B} (m : M A) (k : A -> M B) w e w1 :
  m w = (inl e, w1) -> bind m k w = (inl e, w1).
Proof. unfold bind. now intros ->. Qed.

Lemma tryCatch_inr {A} (m : M A) (h : exn -> M A) w a w' :
  tryCatch m h w = (inr a, w') ->
  m w = (inr a, w') \/ exists e w1, m w = (inl e, w1) /\ h e w1 = (inr a, w').
Proof.
  unfold tryCatch. destruct (m w) as [[e|x] w1]; intros H.
  - right. now exists e, w1.
  - now left.
Qed.

(** *** Paths *)

Lemma parsePath_slash (a b : string) :
  parsePath (a +:+ "/" +:+ b) = parsePath a ++ parsePath b.
Proof. apply (pieces_sep isSlash a "/"%char b eq_refl). Qed.

Lemma parent_snoc (d : list string) (x : string) : parent (d ++ [x]) = d.
Proof. apply removelast_last. Qed.

Lemma parent_length (p : list string) : p <> [] -> S (length (parent p)) = length p.
Proof.
  intros Hne. rewrite (app_removelast_last "" Hne) at 2.
  rewrite length_app. simpl. unfold parent. lia.
Qed.

(** Whatever lies strictly above [p] lies at or above its parent. *)
Lemma under_strict_parent (q p : list string) :
  under q p -> q <> p -> under q (parent p).
Proof.
  intros [k ->] Hne. unfold under.
  destruct (decide (k = [])) as [->|Hk].
  { now rewrite app_nil_r in Hne. }
  rewrite (app_removelast_last "" Hk), app_assoc.
  unfold parent. rewrite removelast_last. now eexists.
Qed.

Lemma not_under_parent (p : list string) : p <> [] -> ~ under p (parent p).
Proof.
  intros Hne H. apply prefix_length in H.
  pose proof (parent_length p Hne). lia.
Qed.

Lemma under_snoc (d : list string) (x : string) : under d (d ++ [x]).
Proof. now exists [x]. Qed.

Lemma under_trans (a b c : list string) : under a b -> under b c -> under a c.
Proof. unfold under. intros. now transitivity b. Qed.

(** *** The primitives *)

Lemma accessSync_inr path w w' :
  accessSync path w = (inr tt, w') -> w' = w /\ is_Some (fs w !! parsePath path).
Proof.
  unfold accessSync. destruct (fs w !! parsePath path) eqn:E; [|discriminate].
  intros [= <-]. eauto.
Qed.

Lemma accessSync_present path w :
  is_Some (fs w !! parsePath path) -> accessSync path w = (inr tt, w).
Proof. intros [n E]. unfold accessSync. now rewrite E. Qed.

Lemma accessSync_absent path w :
  fs w !! parsePath path = None ->
  accessSync path w = (inl (FsError ENOENT "access" (parsePath path)), w).
Proof. intros E. unfold accessSync. now rewrite E. Qed.

Lemma creatable_inr f syscall p :
  creatable f syscall p = inr tt <-> f !! parent p = Some (Dir true).
Proof.
  unfold creatable. destruct (f !! parent p) as [[c|[|]|r]|]; split; intros H;
    try discriminate; try reflexivity.
Qed.

Lemma mkdirSync_inr path w w' :
  mkdirSync path w = (inr tt, w') ->
  fs w !! parsePath path = None
  /\ fs w !! parent (parsePath path) = Some (Dir true)
  /\ w' = setFs (<[parsePath path := Dir true]> (fs w)) w.
Proof.
  unfold mkdirSync. cbv zeta.
  destruct (fs w !! parsePath path) eqn:E; [discriminate|].
  destruct (creatable (fs w) "mkdir" (parsePath path)) as [e|[]] eqn:C; [discriminate|].
  intros [= <-]. apply creatable_inr in C. auto.
Qed.

Lemma mkdirSync_succeeds path w :
  fs w !! parsePath path = None ->
  fs w !! parent (parsePath path) = Some (Dir true) ->
  mkdirSync path w = (inr tt, setFs (<[parsePath path := Dir true]> (fs w)) w).
Proof.
  intros E C. unfold mkdirSync. cbv zeta. rewrite E.
  apply (creatable_inr _ "mkdir") in C. now rewrite C.
Qed.

Lemma rmSync_absent path w :
  fs w !! parsePath path = None ->
  rmSync path w = (inl (FsError ENOENT "rm" (parsePath path)), w).
Proof. intros E. unfold rmSync. cbv zeta. now rewrite E. Qed.

Lemma rmSync_succeeds path w :
  is_Some (fs w !! parsePath path) -> removable (fs w) (parsePath path) ->
  rmSync path w
  = (inr tt, setFs (filter (fun e => ~ under (parsePath path) (fst e)) (fs w)) w).
Proof.
  intros [n E] R. unfold rmSync. cbv zeta. rewrite E.
  now destruct (decide (removable (fs w) (parsePath path))).
Qed.

(** A deletion that throws leaves the file system as it was; one that
    returns has removed the whole tree. *)
Lemma rmSync_cases path w :
  (exists e, rmSync path w = (inl e, w))
  \/ rmSync path w
     = (inr tt, setFs (filter (fun e => ~ under (parsePath path) (fst e)) (fs w)) w).
Proof.
  unfold rmSync. cbv zeta.
  destruct (fs w !! parsePath path); [|eauto].
  destruct (decide (removable (fs w) (parsePath path))); eauto.
Qed.

Lemma lookup_removed (f : gmap (list string) node) (p q : list string) :
  filter (fun e => ~ under p (fst e)) f !! q
  = if decide (under p q) then None else f !! q.
Proof.
  destruct (decide (under p q)) as [U|U].
  - apply map_lookup_filter_None. right. intros n _. simpl. tauto.
  - destruct (f !! q) as [n|] eqn:E.
    + apply map_lookup_filter_Some. auto.
    + apply map_lookup_filter_None. now left.
Qed.

(** *** Tree shape is kept *)

Lemma wfFs_nothing_below f p q :
  wfFs f -> f !! p = None -> under p q -> f !! q = None.
Proof.
  intros W E U. destruct (f !! q) as [n|] eqn:Eq; [|reflexivity].
  destruct (decide (p = q)) as [->|Hne]; [congruence|].
  destruct (W q p n Eq U Hne) as [wr H]. congruence.
Qed.

Lemma wfFs_removed f p : wfFs f -> wfFs (filter (fun e => ~ under p (fst e)) f).
Proof.
  intros W a q n. rewrite !lookup_removed.
  destruct (decide (under p a)) as [|Ua]; [discriminate|].
  intros E U Hne.
  destruct (decide (under p q)) as [Uq|_].
  - exfalso. apply Ua. now apply under_trans with q.
  - now apply (W a q n).
Qed.

Lemma wfFs_created f p n :
  wfFs f -> f !! p = None -> (exists wr, f !! parent p = Some (Dir wr)) ->
  wfFs (<[p := n]> f).
Proof.
  intros W E [wr P] a q m Ea U Hne.
  destruct (decide (a = p)) as [->|Hap].
  - rewrite lookup_insert_ne by congruence.
    pose proof (under_strict_parent q p U Hne) as Uq.
    destruct (decide (q = parent p)) as [->|Hqp]; [eauto|].
    now apply (W (parent p) q (Dir wr)).
  - rewrite lookup_insert_ne in Ea by congruence.
    destruct (W a q m Ea U Hne) as [wr' Hq'].
    exists wr'. rewrite lookup_insert_ne; [exact Hq'|congruence].
Qed.

(** *** git *)

Lemma execSyncGitInit_inr path w out w' :
  execSyncGitInit path w = (inr out, w') ->
  "git" ∈ installed w /\ gitIdentity w = true
  /\ installed w' = installed w /\ gitIdentity w' = gitIdentity w
  /\ exists wr, fs w !! parsePath path = Some (Dir wr)
      /\ match fs w !! (parsePath path ++ [".git"]) with
         | None => wr = true
                   /\ fs w' = <[parsePath path ++ [".git"] := Repo [[]]]> (fs w)
         | Some (Repo revs) =>
             fs w' = <[parsePath path ++ [".git"]
                       := Repo (revs ++ [List.last revs []])]> (fs w)
         | Some _ => False
         end.
Proof.
  unfold execSyncGitInit. cbv zeta.
  destruct (bool_decide ("git" ∈ installed w)) eqn:G; simpl; [|discriminate].
  apply bool_decide_eq_true in G.
  destruct (fs w !! parsePath path) as [[c|wr|r]|] eqn:D; try discriminate.
  destruct (fs w !! (parsePath path ++ [".git"])) as [[c|wr'|revs]|] eqn:E;
    try discriminate.
  - destruct (gitIdentity w) eqn:I; [|discriminate].
    intros [= <- <-]. simpl. repeat split; eauto.
  - destruct wr; [|discriminate]. simpl.
    destruct (gitIdentity w) eqn:I; [|discriminate].
    intros [= <- <-]. simpl. repeat split; trivial.
    exists true. repeat split. now rewrite insert_insert_eq.
Qed.

Lemma execSyncGitInit_fresh path w :
  "git" ∈ installed w -> gitIdentity w = true ->
  fs w !! parsePath path = Some (Dir true) ->
  fs w !! (parsePath path ++ [".git"]) = None ->
  execSyncGitInit path w
  = (inr "", setFs (<[parsePath path ++ [".git"] := Repo [[]]]> (fs w)) w).
Proof.
  intros G I D E. unfold execSyncGitInit. cbv zeta.
  rewrite (bool_decide_eq_true_2 _ G). simpl.
  rewrite D, E. simpl. rewrite I. unfold setFs. simpl.
  now rewrite insert_insert_eq.
Qed.

End HostFacts.

(** ** The cache directory and the state repository *)

Module StoreFacts.
Import JsString JsStringFacts Host HostFacts DebuggerUtils Samples.
Local Open Scope host_scope.

Lemma ensureCache_present cwd w :
  is_Some (fs w !! parsePath (cwd +:+ "/cache")) -> ensureCache cwd w = (inr tt, w).
Proof. intros H. unfold ensureCache, tryCatch. now rewrite accessSync_present. Qed.

Lemma ensureCache_inr cwd w w' :
  ensureCache cwd w = (inr tt, w') ->
  w' = w /\ is_Some (fs w !! parsePath (cwd +:+ "/cache"))
  \/ fs w !! parsePath (cwd +:+ "/cache") = None
     /\ fs w !! parent (parsePath (cwd +:+ "/cache")) = Some (Dir true)
     /\ w' = setFs (<[parsePath (cwd +:+ "/cache") := Dir true]> (fs w)) w.
Proof.
  intros H. apply tryCatch_inr in H as [H | (e & w1 & H1 & H2)].
  - left. now apply accessSync_inr.
  - right. unfold accessSync in H1.
    destruct (fs w !! parsePath (cwd +:+ "/cache")) eqn:E; [discriminate|].
    injection H1 as _ <-. apply mkdirSync_inr in H2. tauto.
Qed.

(** The guarded deletion never throws: whatever [rmSync] throws is caught
    and answered by a console line. *)
Lemma guardedDelete_cases path w :
  (exists e, rmSync path w = (inl e, w)
             /\ tryCatch (rmSync path) (fun _ => consoleLog "Cache didn't exist") w
                = (inr tt, logged "Cache didn't exist" w))
  \/ (rmSync path w
      = (inr tt, setFs (filter (fun e => ~ under (parsePath path) (fst e)) (fs w)) w)
      /\ tryCatch (rmSync path) (fun _ => consoleLog "Cache didn't exist") w
         = (inr tt, setFs (filter (fun e => ~ under (parsePath path) (fst e)) (fs w)) w)).
Proof.
  destruct (rmSync_cases path w) as [[e H] | H].
  - left. exists e. split; [exact H|]. unfold tryCatch. now rewrite H.
  - right. split; [exact H|]. unfold tryCatch. now rewrite H.
Qed.

Lemma freshRepo_removable w d :
  freshRepo w d -> fs w !! parent d = Some (Dir true) -> removable (fs w) d.
Proof.
  intros (Hd & Hg & Honly) Hp q n Hq U.
  destruct (Honly q U (mk_is_Some _ _ Hq)) as [-> | ->].
  - exact Hp.
  - now rewrite parent_snoc.
Qed.

(** What a reset that returns has established. *)
Lemma resetStateRepo_inr statePath cwd w w1 :
  let full := parsePath (cwd +:+ "/" +:+ statePath) in
  let cache := parsePath (cwd +:+ "/cache") in
  wfFs (fs w) ->
  resetStateRepo statePath cwd w = (inr tt, w1) ->
  freshRepo w1 full /\ wfFs (fs w1)
  /\ "git" ∈ installed w1 /\ gitIdentity w1 = true
  /\ is_Some (fs w1 !! cache) /\ ~ under full cache
  /\ fs w1 !! parent full = Some (Dir true) /\ full <> [].
Proof.
  intros full cache W H. unfold resetStateRepo in H. cbv zeta in H.
  apply bind_inr in H as ([] & w0 & H0 & H).
  injection H0 as <-.
  apply bind_inr in H as ([] & wA & HA & H).
  apply bind_inr in H as ([] & wB & HB & H).
  apply bind_inr in H as ([] & wC & HC & H).
  apply bind_inr in H as (out & wD & HD & H).
  injection H as <-.
  (* after the deletion *)
  assert (WA : wfFs (fs wA) /\ installed wA = installed w
               /\ gitIdentity wA = gitIdentity w).
  { destruct (guardedDelete_cases (cwd +:+ "/" +:+ statePath)
                (logged "Creating state repository..." w)) as [(e & _ & E) | [_ E]];
      rewrite E in HA; injection HA as <-; unfold logged; simpl; auto.
    split; [|auto]. now apply wfFs_removed. }
  destruct WA as (WA & IA & GA).
  (* after the cache directory is there *)
  assert (WB : wfFs (fs wB) /\ installed wB = installed wA
               /\ gitIdentity wB = gitIdentity wA
               /\ is_Some (fs wB !! cache)).
  { apply ensureCache_inr in HB as [[-> HB] | (N & P & ->)]; simpl; auto.
    repeat split; trivial.
    - apply wfFs_created; eauto.
    - fold cache. rewrite lookup_insert_eq. eauto. }
  destruct WB as (WB & IB & GB & CB).
  apply mkdirSync_inr in HC as (NC & PC & ->). fold full in NC, PC.
  apply execSyncGitInit_inr in HD as (G & I & ID & GD & wr & D & R).
  simpl in *. fold full in D, R.
  assert (NG : fs wB !! (full ++ [".git"]) = None).
  { apply (wfFs_nothing_below _ full); trivial. apply under_snoc. }
  assert (Hne : full ++ [".git"] <> full).
  { intros E. apply (f_equal length) in E. rewrite length_app in E. simpl in E. lia. }
  rewrite lookup_insert_ne, NG in R by congruence.
  destruct R as [-> R].
  assert (Hfull : full <> []).
  { intros E. rewrite E in PC, NC. simpl in PC. congruence. }
  assert (Hpar : parent full <> full).
  { intros E. apply (f_equal length) in E.
    pose proof (parent_length full Hfull). lia. }
  assert (Hparg : parent full <> full ++ [".git"]).
  { intros E. apply (f_equal length) in E. rewrite length_app in E.
    pose proof (parent_length full Hfull). simpl in E. lia. }
  unfold freshRepo, logged. simpl.
  repeat split.
  - rewrite R, lookup_insert_ne by congruence. apply lookup_insert_eq.
  - rewrite R. apply lookup_insert_eq.
  - intros q U [n Hq]. rewrite R in Hq.
    destruct (decide (q = full ++ [".git"])) as [|Hq1]; [now right|].
    destruct (decide (q = full)) as [|Hq2]; [now left|].
    rewrite !lookup_insert_ne in Hq by congruence.
    rewrite (wfFs_nothing_below _ full q WB NC U) in Hq. discriminate.
  - rewrite R. apply wfFs_created.
    + apply wfFs_created; eauto.
    + now rewrite lookup_insert_ne by congruence.
    + exists true. rewrite parent_snoc. apply lookup_insert_eq.
  - congruence.
  - congruence.
  - destruct CB as [n CB]. rewrite R.
    destruct (decide (full ++ [".git"] = cache)) as [->|]; [rewrite lookup_insert_eq; eauto|].
    rewrite lookup_insert_ne by trivial.
    destruct (decide (full = cache)) as [->|]; [rewrite lookup_insert_eq; eauto|].
    rewrite lookup_insert_ne by trivial. eauto.
  - intros U. destruct CB as [n CB].
    rewrite (wfFs_nothing_below _ full cache WB NC U) in CB. discriminate.
  - rewrite R, !lookup_insert_ne by congruence. exact PC.
  - exact Hfull.
Qed.

(** When a reset goes through. *)
Lemma resetStateRepo_succeeds statePath cwd w :
  let full := parsePath (cwd +:+ "/" +:+ statePath) in
  let cache := parsePath (cwd +:+ "/cache") in
  wfFs (fs w) ->
  "git" ∈ installed w -> gitIdentity w = true ->
  fs w !! full = None \/ removable (fs w) full ->
  is_Some (fs w !! cache) -> ~ under full cache ->
  fs w !! parent full = Some (Dir true) -> full <> [] ->
  exists w', resetStateRepo statePath cwd w = (inr tt, w').
Proof.
  intros full cache W G I Hrm HC HUC HP Hne.
  unfold resetStateRepo. cbv zeta.
  erewrite bind_step by reflexivity.
  assert (HA : exists wA,
             tryCatch (rmSync (cwd +:+ "/" +:+ statePath))
                      (fun _ => consoleLog "Cache didn't exist")
                      (logged "Creating state repository..." w) = (inr tt, wA)
             /\ (forall q, under full q -> fs wA !! q = None)
             /\ (forall q, ~ under full q -> fs wA !! q = fs w !! q)
             /\ installed wA = installed w /\ gitIdentity wA = gitIdentity w).
  { destruct (fs w !! full) as [n|] eqn:E.
    - destruct Hrm as [|Hrm]; [discriminate|].
      eexists. split.
      + unfold tryCatch.
        rewrite rmSync_succeeds;
          [reflexivity | exact (mk_is_Some _ _ E) | exact Hrm].
      + cbn [fs setFs logged installed gitIdentity]. fold full.
        repeat split; trivial; intros q U;
          rewrite lookup_removed; now destruct (decide (under full q)).
    - eexists. split.
      + unfold tryCatch. rewrite rmSync_absent; [reflexivity | exact E].
      + cbn [fs setFs logged consoleLog installed gitIdentity snd].
        repeat split; trivial.
        intros q U. now apply (wfFs_nothing_below _ full). }
  destruct HA as (wA & HA & Hbelow & Hkeep & IA & GA).
  rewrite (bind_step _ _ _ _ _ HA).
  erewrite bind_step
    by (apply ensureCache_present; fold cache;
        rewrite Hkeep by exact HUC; exact HC).
  erewrite bind_step.
  2: { apply mkdirSync_succeeds; fold full.
       - apply Hbelow. reflexivity.
       - rewrite Hkeep; [exact HP | now apply not_under_parent]. }
  erewrite bind_step.
  2: apply execSyncGitInit_fresh;
       cbn [fs setFs logged installed gitIdentity]; fold full.
  - eauto.
  - congruence.
  - congruence.
  - apply lookup_insert_eq.
  - rewrite lookup_insert_ne.
    + apply Hbelow, under_snoc.
    + intros E. apply (f_equal length) in E. rewrite length_app in E. simpl in E. lia.
Qed.

(** C5: a reset that returns leaves [cwd/statePath] a directory holding a
    repository with exactly one revision, which tracks no file (and nothing
    else); a second reset right after it returns as well and leaves the
    same. *)
Theorem resetStateRepo_fresh_and_repeatable statePath cwd w w1 :
  let full := parsePath (cwd +:+ "/" +:+ statePath) in
  wfFs (fs w) ->
  resetStateRepo statePath cwd w = (inr tt, w1) ->
  freshRepo w1 full
  /\ exists w2, resetStateRepo statePath cwd w1 = (inr tt, w2)
                /\ freshRepo w2 full.
Proof.
  intros full W H.
  destruct (resetStateRepo_inr statePath cwd w w1 W H)
    as (F & W1 & G & I & C & UC & P & Hne).
  split; [exact F|].
  destruct (resetStateRepo_succeeds statePath cwd w1) as [w2 H2]; trivial.
  { right. now apply freshRepo_removable. }
  exists w2. split; [exact H2|].
  now apply (resetStateRepo_inr statePath cwd w1 w2 W1 H2).
Qed.

Lemma workspace_wf : wfFs (fs workspace).
Proof.
  unfold workspace. cbn [fs].
  apply wfFs_created;
    [| vm_compute; reflexivity | exists true; vm_compute; reflexivity].
  intros a q m Ha U Hne.
  destruct (decide (a = [])) as [->|Hn].
  - apply prefix_nil_inv in U. congruence.
  - rewrite lookup_insert_ne, lookup_empty in Ha by congruence. discriminate.
Qed.

Lemma resetStateRepo_fresh_and_repeatable_witness :
  let w1 := snd (resetStateRepo "cache/huff_debug_hevm_state" "/ws" workspace) in
  freshRepo w1 ["ws"; "cache"; "huff_debug_hevm_state"]
  /\ exists w2,
      resetStateRepo "cache/huff_debug_hevm_state" "/ws" w1 = (inr tt, w2)
      /\ freshRepo w2 ["ws"; "cache"; "huff_debug_hevm_state"].
Proof.
  intros w1.
  apply (resetStateRepo_fresh_and_repeatable
           "cache/huff_debug_hevm_state" "/ws" workspace w1).
  - exact workspace_wf.
  - vm_compute. reflexivity.
Defined.

(** C9: when [cwd/cache] is there, making sure of it changes nothing and
    does not throw, so that [writeHevmCommand] goes straight to writing its
    file; when [cwd/cache] is not there, [purgeCache] returns, having
    written one console line. *)
Theorem cache_directory_idempotent (cwd : string) (w : World) :
  (is_Some (fs w !! parsePath (cwd +:+ "/cache")) ->
   ensureCache cwd w = (inr tt, w)
   /\ forall command file,
       writeHevmCommand command file cwd w
       = writeFileSync (cwd +:+ "/" +:+ file) command w)
  /\ (fs w !! parsePath (cwd +:+ "/cache") = None ->
      purgeCache cwd w = (inr tt, logged "Cache didn't exist" w)).
Proof.
  split.
  - intros H. pose proof (ensureCache_present cwd w H) as E.
    split; [exact E|]. intros command file.
    unfold writeHevmCommand. now rewrite (bind_step _ _ _ _ _ E).
  - intros H. unfold purgeCache, tryCatch.
    now rewrite rmSync_absent.
Qed.

Lemma cache_directory_idempotent_witness :
  (ensureCache "/ws" cachedWorkspace = (inr tt, cachedWorkspace)
   /\ forall command file,
       writeHevmCommand command file "/ws" cachedWorkspace
       = writeFileSync ("/ws" +:+ "/" +:+ file) command cachedWorkspace)
  /\ purgeCache "/ws" workspace = (inr tt, logged "Cache didn't exist" workspace).
Proof.
  split.
  - apply (cache_directory_idempotent "/ws" cachedWorkspace).
    vm_compute. eauto.
  - apply (cache_directory_idempotent "/ws" workspace).
    vm_compute. reflexivity.
Defined.

(** C3, as stated, fails: in a read-only workspace the deletion of the
    cache directory is refused with [EACCES], which is not a "not found"
    condition, and [purgeCache] returns all the same. *)
Lemma purgeCache_hides_permission_error :
  rmSync "/ws/cache" lockedWorkspace
  = (inl (FsError EACCES "rm" ["ws"; "cache"]), lockedWorkspace)
  /\ purgeCache "/ws" lockedWorkspace
     = (inr tt, logged "Cache didn't exist" lockedWorkspace)
  /\ fst (purgeCache "/ws" lockedWorkspace)
     <> inl (FsError EACCES "rm" ["ws"; "cache"]).
Proof. repeat split; vm_compute; (reflexivity || discriminate). Qed.

(** C3, amended: whatever the recursive deletion throws, "not found" or
    anything else, is caught and answered by the console line
    [Cache didn't exist]; [purgeCache] then returns (it returns in every
    world) and [resetStateRepo] goes on with its remaining steps. *)
Theorem delete_errors_are_swallowed (statePath cwd : string) (w : World) :
  (forall e w', rmSync (cwd +:+ "/cache") w = (inl e, w') ->
                purgeCache cwd w = (inr tt, logged "Cache didn't exist" w'))
  /\ (exists w', purgeCache cwd w = (inr tt, w'))
  /\ (forall e w',
        rmSync (cwd +:+ "/" +:+ statePath)
               (logged "Creating state repository..." w) = (inl e, w') ->
        resetStateRepo statePath cwd w
        = (ensureCache cwd ;;
           mkdirSync (cwd +:+ "/" +:+ statePath) ;;
           execSyncGitInit (cwd +:+ "/" +:+ statePath) ;;
           consoleLog "Created state repository...")%host
            (logged "Cache didn't exist" w')).
Proof.
  repeat split.
  - intros e w' H. unfold purgeCache, tryCatch. now rewrite H.
  - destruct (guardedDelete_cases (cwd +:+ "/cache") w) as [(e & _ & H) | [_ H]];
      unfold purgeCache; rewrite H; eauto.
  - intros e w' H. unfold resetStateRepo. cbv zeta.
    erewrite bind_step by reflexivity.
    erewrite bind_step; [reflexivity|].
    unfold tryCatch. now rewrite H.
Qed.

Lemma delete_errors_are_swallowed_witness :
  purgeCache "/ws" lockedWorkspace
  = (inr tt, logged "Cache didn't exist" lockedWorkspace)
  /\ fst (resetStateRepo "cache" "/ws" lockedWorkspace)
     = inl (FsError EEXIST "mkdir" ["ws"; "cache"]).
Proof.
  destruct (delete_errors_are_swallowed "cache" "/ws" lockedWorkspace)
    as (P & _ & R).
  split.
  - apply (P (FsError EACCES "rm" ["ws"; "cache"])).
    vm_compute. reflexivity.
  - rewrite (R (FsError EACCES "rm" ["ws"; "cache"])
               (logged "Creating state repository..." lockedWorkspace)).
    + vm_compute. reflexivity.
    + vm_compute. reflexivity.
Defined.

End StoreFacts.

(** ** The installation check *)

Module InstallationFacts.
Import Host HostFacts DebuggerUtils Samples.
Local Open Scope host_scope.

Lemma checkHevmInstallation_installed w :
  "hevm" ∈ installed w -> checkHevmInstallation w = (inr true, w).
Proof.
  intros H. unfold checkHevmInstallation, tryCatch, bind, commandExists.
  now rewrite (bool_decide_eq_true_2 _ H).
Qed.

(** What the check of [huffc] would have answered, had it been called. *)
Lemma checkHuffcInstallation_missing w :
  "huffc" ∉ installed w -> fst (checkHuffcInstallation w) = inr false.
Proof.
  intros H. unfold checkHuffcInstallation, tryCatch, bind, commandExists.
  now rewrite (bool_decide_eq_false_2 _ H).
Qed.

(** C1: [checkHuffcInstallation] reaches [Promise.all] as a function, which
    is truthy, and is never run: with [hevm] on the PATH the aggregate check
    answers [true] and leaves the host as it is (no message is shown),
    whether or not [huffc] is installed. *)
Theorem checkInstallations_ignores_huffc (w : World) :
  "hevm" ∈ installed w ->
  truthy (VFunction checkHuffcInstallation) = true
  /\ checkInstallations w = (inr true, w).
Proof.
  intros H. split; [reflexivity|].
  unfold checkInstallations.
  rewrite (bind_step _ _ _ _ _ (checkHevmInstallation_installed w H)).
  reflexivity.
Qed.

Lemma checkInstallations_ignores_huffc_witness :
  ("huffc" ∉ installed workspace)
  /\ fst (checkHuffcInstallation workspace) = inr false
  /\ truthy (VFunction checkHuffcInstallation) = true
  /\ checkInstallations workspace = (inr true, workspace).
Proof.
  assert (H : "huffc" ∉ installed workspace).
  { apply (proj1 (bool_decide_eq_false _)). vm_compute. reflexivity. }
  split; [exact H|]. split.
  - now apply checkHuffcInstallation_missing.
  - apply (checkInstallations_ignores_huffc workspace).
    apply (proj1 (bool_decide_eq_true _)). vm_compute. reflexivity.
Defined.

(** The answer depends on [hevm] alone. *)
Lemma checkInstallations_answer (w : World) :
  fst (checkInstallations w) = inr (bool_decide ("hevm" ∈ installed w)).
Proof.
  unfold checkInstallations, checkHevmInstallation, tryCatch, bind, commandExists.
  destruct (bool_decide ("hevm" ∈ installed w)); reflexivity.
Qed.

End InstallationFacts.

(** ** deployContract and the state repository *)

Module DeployFacts.
Import JsString JsStringFacts Host HostFacts DebuggerUtils Samples.
Import DeployCommandFacts StoreFacts.
Local Open Scope host_scope.

Lemma ensureCache_frame cwd w q :
  q <> parsePath (cwd +:+ "/cache") ->
  fs (snd (ensureCache cwd w)) !! q = fs w !! q.
Proof.
  intros Hq.
  destruct (fs w !! parsePath (cwd +:+ "/cache")) as [n|] eqn:E.
  - rewrite ensureCache_present; eauto.
  - unfold ensureCache, tryCatch. rewrite accessSync_absent by exact E.
    unfold mkdirSync. cbv zeta. rewrite E.
    destruct (creatable _ _ _) as [e|[]]; [reflexivity|].
    cbn [snd fs setFs]. now rewrite lookup_insert_ne by congruence.
Qed.

Lemma writeFileSync_frame path data w q :
  q <> parsePath path ->
  fs (snd (writeFileSync path data w)) !! q = fs w !! q.
Proof.
  intros Hq. unfold writeFileSync. cbv zeta.
  destruct (fs w !! parsePath path) as [[c|wr|r]|]; try reflexivity.
  - cbn [snd fs setFs]. now rewrite lookup_insert_ne by congruence.
  - destruct (creatable _ _ _) as [e|[]]; [reflexivity|].
    cbn [snd fs setFs]. now rewrite lookup_insert_ne by congruence.
Qed.

Lemma writeFileSync_inr path data w w' :
  writeFileSync path data w = (inr tt, w') ->
  fs w' !! parsePath path = Some (File data).
Proof.
  unfold writeFileSync. cbv zeta.
  destruct (fs w !! parsePath path) as [[c|wr|r]|]; try discriminate.
  - intros [= <-]. apply lookup_insert_eq.
  - destruct (creatable _ _ _) as [e|[]]; [discriminate|].
    intros [= <-]. apply lookup_insert_eq.
Qed.

Lemma stateArg_absent (argv : list string) :
  "--state" ∉ argv -> stateArg argv = None.
Proof.
  induction argv as [|a argv IH]; [reflexivity|].
  intros H. apply not_elem_of_cons in H as [Ha Hr]. simpl.
  destruct (String.eqb a "--state") eqn:E.
  - apply String.eqb_eq in E. congruence.
  - now apply IH.
Qed.

Lemma recordingEngine_frame argv w :
  "--state" ∉ argv -> recordingEngine argv w = (inr "", w).
Proof. intros H. unfold recordingEngine. now rewrite stateArg_absent. Qed.

(** With both checks off, the engine is run without [--state]. *)
Lemma deployCommand_plain_argv (bytecode : string) (config : Config) (cwd : string) :
  stateChecked config || storageChecked config = false ->
  "--state" ∉ shellWords bytecode ->
  "--state" ∉ shellWords (hevmContractAddress config) ->
  "--state" ∉ shellWords (hevmCaller config) ->
  exists argv, shellWords (deployCommand bytecode config cwd) = "hevm" :: argv
               /\ "--state" ∉ argv.
Proof.
  intros Hoff Hb Ha Hc. rewrite deployCommand_shellWords, Hoff.
  eexists. split; [reflexivity|].
  rewrite app_nil_r.
  rewrite !not_elem_of_cons, !not_elem_of_app, !not_elem_of_cons.
  repeat split; trivial; try discriminate; apply not_elem_of_nil.
Qed.

(** C4: with state or storage checking on, [deployContract] begins by
    resetting the state repository: when the reset throws, so does the
    deploy, and when it returns, the command is written and run in a world
    whose state directory holds a repository with one empty revision.  With
    both off, nothing at or below the state directory changes, given that
    the cache directory and the command file lie outside the state directory
    and that the engine, run without [--state], keeps away from it. *)
Theorem deployContract_state_repository (hevm : list string -> M string)
  (bytecode : string) (config : Config) (cwd : string) (w : World) :
  let full := parsePath (cwd +:+ "/" +:+ statePath config) in
  let cache := parsePath (cwd +:+ "/cache") in
  let commandFile := parsePath (cwd +:+ "/" +:+ tempHevmCommandFilename config) in
  (stateChecked config || storageChecked config = true ->
   match resetStateRepo (statePath config) cwd w with
   | (inl e, w1) => deployContract hevm bytecode config cwd w = (inl e, w1)
   | (inr _, w1) =>
       (wfFs (fs w) -> freshRepo w1 full)
       /\ deployContract hevm bytecode config cwd w
          = (writeHevmCommand (deployCommand bytecode config cwd)
                              (tempHevmCommandFilename config) cwd ;;
             execSyncCat hevm (cwd +:+ "/" +:+ tempHevmCommandFilename config))
              w1
   end)
  /\ (stateChecked config || storageChecked config = false ->
      ~ under full cache -> ~ under full commandFile ->
      (forall argv w0 q, "--state" ∉ argv -> under full q ->
                         fs (snd (hevm argv w0)) !! q = fs w0 !! q) ->
      "--state" ∉ shellWords bytecode ->
      "--state" ∉ shellWords (hevmContractAddress config) ->
      "--state" ∉ shellWords (hevmCaller config) ->
      forall q, under full q ->
                fs (snd (deployContract hevm bytecode config cwd w)) !! q
                = fs w !! q).
Proof.
  intros full cache commandFile. split.
  - intros Hon. unfold deployContract, checkStateRepoExistence. rewrite Hon.
    destruct (resetStateRepo (statePath config) cwd w) as [[e|[]] w1] eqn:R.
    + now rewrite (bind_throw _ _ _ _ _ R).
    + split.
      * intros W. now apply (resetStateRepo_inr (statePath config) cwd w w1 W R).
      * now rewrite (bind_step _ _ _ _ _ R).
  - intros Hoff HUC HUF Hengine Hb Ha Hc q U.
    assert (Hqc : q <> cache) by (intros ->; contradiction).
    assert (Hqf : q <> commandFile) by (intros ->; contradiction).
    unfold deployContract. rewrite Hoff.
    erewrite bind_step by reflexivity. cbv zeta.
    unfold writeHevmCommand.
    pose proof (ensureCache_frame cwd w q Hqc) as FB.
    destruct (ensureCache cwd w) as [[e|[]] wB] eqn:EB; simpl in FB.
    { rewrite (bind_throw _ _ _ e wB); [exact FB|]. now apply bind_throw. }
    pose proof (writeFileSync_frame
                  (cwd +:+ "/" +:+ tempHevmCommandFilename config)
                  (deployCommand bytecode config cwd) wB q Hqf) as FC.
    destruct (writeFileSync _ _ wB) as [[e|[]] wC] eqn:EC; simpl in FC.
    { rewrite (bind_throw _ _ _ e wC); [cbn [snd]; now rewrite FC|].
      rewrite (bind_step _ _ _ _ _ EB). exact EC. }
    rewrite (bind_step _ _ _ tt wC);
      [|rewrite (bind_step _ _ _ _ _ EB); exact EC].
    rewrite <- FB, <- FC.
    apply writeFileSync_inr in EC.
    unfold execSyncCat.
    destruct (negb (unbroken isIFS _)); [reflexivity|].
    rewrite EC.
    destruct (deployCommand_plain_argv bytecode config cwd Hoff Hb Ha Hc)
      as (argv & -> & Hargv).
    destruct (String.eqb "hevm" "hevm" && bool_decide ("hevm" ∈ installed wC));
      [|reflexivity].
    now apply Hengine.
Qed.

Lemma deployContract_state_repository_witness :
  (let w1 := snd (resetStateRepo "cache/huff_debug_hevm_state" "/ws" workspace) in
   freshRepo w1 ["ws"; "cache"; "huff_debug_hevm_state"]
   /\ deployContract recordingEngine "0x6000" sampleConfig "/ws" workspace
      = (writeHevmCommand (deployCommand "0x6000" sampleConfig "/ws")
                          "cache/hevmtemp" "/ws" ;;
         execSyncCat recordingEngine ("/ws" +:+ "/" +:+ "cache/hevmtemp")) w1)
  /\ (let w := snd (resetStateRepo "cache/huff_debug_hevm_state" "/ws" workspace) in
      forall q, under ["ws"; "cache"; "huff_debug_hevm_state"] q ->
                fs (snd (deployContract recordingEngine "0x6000" plainConfig "/ws" w))
                  !! q
                = fs w !! q).
Proof.
  split.
  - intros w1.
    pose proof (proj1 (deployContract_state_repository
                         recordingEngine "0x6000" sampleConfig "/ws" workspace)
                      eq_refl) as H.
    assert (R : resetStateRepo (statePath sampleConfig) "/ws" workspace
                = (inr tt, w1)) by (vm_compute; reflexivity).
    rewrite R in H. destruct H as [F D].
    split; [exact (F workspace_wf) | exact D].
  - intros w.
    apply (proj2 (deployContract_state_repository
                    recordingEngine "0x6000" plainConfig "/ws" w)).
    + reflexivity.
    + apply (proj1 (bool_decide_eq_false _)). vm_compute. reflexivity.
    + apply (proj1 (bool_decide_eq_false _)). vm_compute. reflexivity.
    + intros argv w0 q Hn _. now rewrite recordingEngine_frame.
    + intros H. vm_compute in H. apply list_elem_of_singleton in H. discriminate.
    + intros H. vm_compute in H. apply list_elem_of_singleton in H. discriminate.
    + intros H. vm_compute in H. apply list_elem_of_singleton in H. discriminate.
Defined.

End DeployFacts.

(** ** The webview script *)

Module WebviewFacts.
Import JsString Webview Samples.

(** *** Looking up the selected signature *)

Lemma findEntry_first (pre : Table) (e : Entry) (post : Table) (sig : string) :
  Forall (fun x : Entry => fnSig (snd x) <> sig) pre ->
  fnSig (snd e) = sig ->
  findEntry (pre ++ e :: post) sig = Some e.
Proof.
  intros Hpre He. unfold findEntry.
  induction Hpre as [|x pre Hx _ IH]; simpl.
  - rewrite He, String.eqb_refl. reflexivity.
  - apply String.eqb_neq in Hx. now rewrite Hx.
Qed.

Lemma findEntry_Some (table : Table) (sig : string) (e : Entry) :
  findEntry table sig = Some e ->
  exists pre post, table = pre ++ e :: post
                   /\ Forall (fun x : Entry => fnSig (snd x) <> sig) pre
                   /\ fnSig (snd e) = sig.
Proof.
  unfold findEntry. induction table as [|x table IH]; simpl; [discriminate|].
  destruct (String.eqb (fnSig (snd x)) sig) eqn:E.
  - intros [= <-]. apply String.eqb_eq in E.
    exists [], table. auto.
  - intros H. destruct (IH H) as (pre & post & -> & Hpre & He).
    apply String.eqb_neq in E.
    exists (x :: pre), post. auto.
Qed.

(** *** Rendering the fields *)

Lemma renderArgs_keeps key rest i pg :
  let pg' := snd (renderArgs key rest i pg) in
  store pg' = store pg /\ varSelectedFunction pg' = varSelectedFunction pg
  /\ varFunctionSelectors pg' = varFunctionSelectors pg
  /\ dropdown pg' = dropdown pg /\ listeners pg' = listeners pg.
Proof.
  revert i pg. induction rest as [|arg rest IH]; intros i pg; simpl; [auto|].
  destruct (store pg) as [st|] eqn:Hst; [|simpl; auto].
  destruct (argsValues st) as [av|]; [|simpl; auto].
  specialize (IH (S i) (setInputs (inputs pg ++ [(S i, prefill av key (S i) arg)]) pg)).
  simpl in IH. rewrite Hst in IH. exact IH.
Qed.

Lemma prefill_persisted av key i arg :
  prefill av key i arg
  = match persistedValue av key i with
    | Some v => if String.eqb v "" then arg else v
    | None => arg
    end.
Proof. unfold prefill, persistedValue. now destruct (av !! key). Qed.

Lemma fieldsFrom_length fill i rest :
  length (fieldsFrom fill i rest) = length rest.
Proof. revert i. induction rest as [|a rest IH]; intros i; simpl; auto. Qed.

Lemma fieldsFrom_lookup fill i rest k arg :
  rest !! k = Some arg ->
  fieldsFrom fill i rest !! k = Some (S (i + k), fill (S (i + k)) arg).
Proof.
  revert i k. induction rest as [|a rest IH]; intros i k H; [discriminate|].
  destruct k as [|k]; simpl in *.
  - injection H as ->. now rewrite Nat.add_0_r.
  - rewrite (IH (S i) k H). now replace (i + S k) with (S i + k) by lia.
Qed.

(** With an [argsValues] map in the state the loop goes through and adds
    one field for each argument. *)
Lemma renderArgs_fields key rest i pg st av :
  store pg = Some st -> argsValues st = Some av ->
  renderArgs key rest i pg
  = (Returned, setInputs (inputs pg ++ fieldsFrom (prefill av key) i rest) pg).
Proof.
  revert i pg. induction rest as [|a rest IH]; intros i pg Hst Hav; simpl.
  - rewrite app_nil_r. now destruct pg.
  - rewrite Hst, Hav. erewrite IH; [|exact Hst|exact Hav].
    unfold setInputs. simpl. now rewrite <- app_assoc.
Qed.

(** Without it the first argument already throws, before any field is
    added. *)
Lemma renderArgs_no_argsValues key arg rest i pg st :
  store pg = Some st -> argsValues st = None ->
  renderArgs key (arg :: rest) i pg = (Threw, pg).
Proof. intros Hst Hav. simpl. now rewrite Hst, Hav. Qed.

(** What [createArgsInputs] does once the state holds an [argsValues]
    map: for a selected value that is not empty, the first entry of the
    table with that signature becomes the selected function (in the script
    and in the state), and the list is given exactly one field for each of
    its arguments, numbered from 1, holding the value persisted for that
    function and field when there is one and it is not empty, and the
    placeholder of the argument otherwise. *)
Lemma createArgsInputs_renders (pg : Page) (value : string)
  (pre : Table) (key : string) (props : FnProps) (post : Table)
  (st : WebviewState) (av : gmap string (gmap nat string)) :
  value <> "" ->
  varFunctionSelectors pg = Some (pre ++ (key, props) :: post) ->
  Forall (fun x : Entry => fnSig (snd x) <> value) pre ->
  fnSig props = value ->
  store pg = Some st -> argsValues st = Some av ->
  exists pg',
    createArgsInputs value pg = (Returned, pg')
    /\ varSelectedFunction pg' = Some (key, props)
    /\ store pg' = Some (withSelectedFunction (Some (key, props)) st)
    /\ length (inputs pg') = length (args props)
    /\ forall k arg,
         args props !! k = Some arg ->
         inputs pg' !! k
         = Some (S k, match persistedValue av key (S k) with
                      | Some v => if String.eqb v "" then arg else v
                      | None => arg
                      end).
Proof.
  intros Hv Ht Hpre Hsig Hst Hav.
  unfold createArgsInputs.
  apply String.eqb_neq in Hv. rewrite Hv, Ht.
  rewrite (findEntry_first pre (key, props) post value Hpre Hsig).
  cbv zeta. rewrite Hst. cbn [spread].
  erewrite renderArgs_fields; [|reflexivity|exact Hav].
  eexists. split; [reflexivity|].
  cbn [setInputs varSelectedFunction store inputs app].
  repeat split.
  - apply fieldsFrom_length.
  - intros k arg H. rewrite (fieldsFrom_lookup _ 0 _ k arg H).
    now rewrite prefill_persisted.
Qed.

(** C8: the code at the failing input.  A panel is opened without a
    persisted state and receives the sample table; [bar(uint256)] is
    selected.  The entry is found and becomes the selected function, but the
    state holds no [argsValues] (nothing in the script ever stores one), so
    that the loop throws where it reads [state.argsValues] for the first
    argument: [bar] has one argument and no field is rendered, neither by
    the handler nor by the click of the user that runs it. *)
Theorem createArgsInputs_new_panel :
  Reachable newPanel
  /\ (argsValues <$> store newPanel) = Some None
  /\ findEntry sampleTable "bar(uint256)" = Some barEntry
  /\ args (snd barEntry) = ["uint256"]
  /\ fst (createArgsInputs "bar(uint256)" newPanel) = Threw
  /\ varSelectedFunction (snd (createArgsInputs "bar(uint256)" newPanel))
     = Some barEntry
  /\ inputs (snd (createArgsInputs "bar(uint256)" newPanel)) = []
  /\ inputs (userSelects 1 newPanel) = [].
Proof.
  split; [|repeat split; vm_compute; reflexivity].
  apply reach_load; [apply reach_open|].
  repeat constructor; discriminate.
Qed.

(** With an [argsValues] map in the state, what is typed into the field of
    [bar(uint256)] is there again after [foo()] and then [bar(uint256)] are
    picked. *)
Lemma typed_value_comes_back :
  let emptyValues := mkState (Some sampleTable) (Some barEntry) (Some ∅) in
  let pg1 := snd (createArgsInputs "bar(uint256)" (pageOf emptyValues)) in
  let pg2 := snd (onInput 1 "5" pg1) in
  let pg3 := userSelects 1 (userSelects 0 pg2) in
  inputs pg1 = [(1, "uint256")] /\ inputs pg2 = [(1, "5")]
  /\ inputs (userSelects 0 pg2) = [] /\ inputs pg3 = [(1, "5")].
Proof. repeat split; vm_compute; reflexivity. Qed.

(** *** Hiding and showing the panel *)

Lemma createArgsInputs_keeps value pg :
  let pg' := snd (createArgsInputs value pg) in
  varFunctionSelectors pg' = varFunctionSelectors pg
  /\ dropdown pg' = dropdown pg /\ listeners pg' = listeners pg.
Proof.
  unfold createArgsInputs.
  destruct (String.eqb value ""); [simpl; auto|].
  destruct (varFunctionSelectors pg) as [table|] eqn:Ht; [|simpl; auto].
  cbv zeta.
  destruct (findEntry table value) as [[key props]|]; [|simpl; auto].
  destruct (renderArgs_keeps key (args props) 0
              (mkPage (Some (withSelectedFunction (Some (key, props))
                               (spread (store pg))))
                      (Some table) (Some (key, props))
                      (dropdown pg) (listeners pg) []))
    as (_ & _ & V & D & L).
  auto.
Qed.



Lemma fold_addOption (table : Table) (d : Select) :
  fold_left (fun d (e : Entry) => addOption (fnSig (snd e)) d) table d
  = mkSelect (options d ++ signatures table)
             (match selectedIndex d, table with
              | Some i, _ => Some i
              | None, [] => None
              | None, _ :: _ => Some 0
              end).
Proof.
  revert d. induction table as [|e table IH]; intros d; simpl.
  - rewrite app_nil_r. now destruct d as [o [i|]].
  - rewrite IH. unfold addOption. simpl. rewrite <- app_assoc. simpl.
    f_equal. destruct (selectedIndex d); now destruct table.
Qed.



(** *** What every reachable page satisfies *)

Lemma dispatchClick_idle n pg :
  selectValue (dropdown pg) = "" -> dispatchClick n pg = pg.
Proof.
  intros H. induction n as [|n IH]; simpl; [reflexivity|].
  rewrite H. exact IH.
Qed.

Lemma indexOfValue_lookup v texts j :
  indexOfValue v texts = Some j ->
  exists t, texts !! j = Some t /\ optionValue t = v.
Proof.
  revert j. induction texts as [|t texts IH]; intros j; simpl; [discriminate|].
  destruct (String.eqb (optionValue t) v) eqn:E.
  - intros [= <-]. apply String.eqb_eq in E. eauto.
  - destruct (indexOfValue v texts) as [j'|]; [|discriminate].
    intros [= <-]. now apply IH.
Qed.

Lemma indexOfValue_found v texts :
  In v (map optionValue texts) -> is_Some (indexOfValue v texts).
Proof.
  induction texts as [|t texts IH]; simpl; [tauto|].
  intros H. destruct (String.eqb (optionValue t) v) eqn:E; [eauto|].
  apply String.eqb_neq in E. destruct H as [H|H]; [congruence|].
  destruct (IH H) as [j ->]. simpl. eauto.
Qed.




Lemma createArgsInputs_selects value pg st table e :
  store pg = Some st -> varFunctionSelectors pg = Some table ->
  value <> "" -> findEntry table value = Some e ->
  store (snd (createArgsInputs value pg))
  = Some (withSelectedFunction (Some e) st).
Proof.
  intros Hst Ht Hv Hf. unfold createArgsInputs.
  apply String.eqb_neq in Hv. rewrite Hv, Ht. cbv zeta.
  rewrite Hf, Hst. cbn [spread]. destruct e as [key props].
  now rewrite (proj1 (renderArgs_keeps key (args props) 0 _)).
Qed.












(** The same for a panel that was opened and given the sample table, in
    which the user then picked [bar(uint256)]. *)
Lemma selected_function_survives :
  let pg := userSelects 1 newPanel in
  Reachable pg
  /\ (selectedFunction <$> store pg) = Some (Some barEntry)
  /\ (selectedFunction <$> store (hideAndShow pg)) = Some (Some barEntry).
Proof.
  split; [|split; vm_compute; reflexivity].
  apply reach_select; [apply reach_load; [apply reach_open|]|].
  - repeat constructor; discriminate.
  - vm_compute. lia.
Qed.

End WebviewFacts.

(** * Further properties *)

(** ** formatEvenBytes on arbitrary strings *)

Module FormatEvenBytesMore.
Import JsString JsStringFacts DebuggerUtils FormatEvenBytesFacts.

(** X1: the result has an even number of characters exactly when the input
    had, or [0x] occurs in it. *)
Theorem formatEvenBytes_parity (s : string) :
  Nat.even (String.length (formatEvenBytes s))
  = Nat.even (String.length s) || includes "0x" s.
Proof.
  unfold formatEvenBytes. rewrite odd_test, <- Nat.negb_even.
  destruct (Nat.even (String.length s)) eqn:E; simpl; [exact E|].
  destruct (includes "0x" s) eqn:I.
  - pose proof (replace_match_length "0x" "0x0" s I) as L. simpl in L.
    replace (String.length (replace "0x" "0x0" s)) with (S (String.length s)) by lia.
    rewrite Nat.even_succ, <- Nat.negb_even, E. reflexivity.
  - rewrite replace_no_match by exact I. exact E.
Qed.

Lemma replace_0x_after (a b : string) :
  includes "0x" a = false ->
  replace "0x" "0x0" (a +:+ "0x" +:+ b) = a +:+ "0x0" +:+ b.
Proof.
  induction a as [|c a IH]; intros H; [reflexivity|].
  cbn [includes] in H.
  destruct (startsWith "0x" (String c a)) eqn:S1; [discriminate|].
  change (String c a +:+ "0x" +:+ b) with (String c (a +:+ "0x" +:+ b)).
  cbn [replace].
  assert (S2 : startsWith "0x" (String c (a +:+ "0x" +:+ b)) = false).
  { cbn [startsWith] in *. destruct (Ascii.eqb _ c); [|reflexivity].
    destruct a as [|d a]; [reflexivity|].
    change (String d a +:+ "0x" +:+ b) with (String d (a +:+ "0x" +:+ b)).
    cbn [startsWith] in *.
    destruct (Ascii.eqb _ d); [discriminate|reflexivity]. }
  rewrite S2, IH by exact H. reflexivity.
Qed.

(** X2: in a string of odd length the [0] goes behind the first [0x],
    wherever that is: a prefix is not required. *)
Theorem formatEvenBytes_pads_first_0x (a b : string) :
  Nat.odd (String.length (a +:+ "0x" +:+ b)) = true ->
  includes "0x" a = false ->
  formatEvenBytes (a +:+ "0x" +:+ b) = a +:+ "0x0" +:+ b.
Proof.
  intros Hodd Ha. unfold formatEvenBytes. rewrite odd_test, Hodd.
  now apply replace_0x_after.
Qed.

Lemma formatEvenBytes_pads_first_0x_witness :
  formatEvenBytes ("ab" +:+ "0x" +:+ "123") = "ab" +:+ "0x0" +:+ "123".
Proof. apply (formatEvenBytes_pads_first_0x "ab" "123"); reflexivity. Defined.

End FormatEvenBytesMore.

(** ** What the file operations touch *)

Module FrameFacts.
Import JsString JsStringFacts Host HostFacts DebuggerUtils.
Local Open Scope host_scope.

Lemma sameAt_refl q w : sameAt q w w.
Proof. repeat split. Qed.

Lemma sameAt_trans q w1 w2 w3 : sameAt q w1 w2 -> sameAt q w2 w3 -> sameAt q w1 w3.
Proof. unfold sameAt. intros (A & B & C & D) (A' & B' & C' & D'). repeat split; congruence. Qed.

Lemma bind_sameAt {A B} q (m : M A) (k : A -> M B) w :
  sameAt q w (snd (m w)) ->
  (forall a w1, m w = (inr a, w1) -> sameAt q w1 (snd (k a w1))) ->
  sameAt q w (snd (bind m k w)).
Proof.
  intros Hm Hk. unfold bind. destruct (m w) as [[e|a] w1] eqn:E; [exact Hm|].
  apply sameAt_trans with w1; [exact Hm | now apply Hk].
Qed.

Lemma tryCatch_sameAt {A} q (m : M A) (h : exn -> M A) w :
  sameAt q w (snd (m w)) ->
  (forall e w1, m w = (inl e, w1) -> sameAt q w1 (snd (h e w1))) ->
  sameAt q w (snd (tryCatch m h w)).
Proof.
  intros Hm Hh. unfold tryCatch. destruct (m w) as [[e|a] w1] eqn:E; [|exact Hm].
  apply sameAt_trans with w1; [exact Hm | now apply Hh].
Qed.

Lemma consoleLog_sameAt q line w : sameAt q w (snd (consoleLog line w)).
Proof. repeat split. Qed.

Lemma accessSync_sameAt q path w : sameAt q w (snd (accessSync path w)).
Proof. unfold accessSync. destruct (fs w !! parsePath path); apply sameAt_refl. Qed.

Lemma mkdirSync_sameAt q path w :
  q <> parsePath path -> sameAt q w (snd (mkdirSync path w)).
Proof.
  intros Hq. unfold mkdirSync. cbv zeta.
  destruct (fs w !! parsePath path); [apply sameAt_refl|].
  destruct (creatable _ _ _) as [e|[]]; [apply sameAt_refl|].
  repeat split. cbn [snd fs setFs]. now rewrite lookup_insert_ne by congruence.
Qed.

Lemma writeFileSync_sameAt q path data w :
  q <> parsePath path -> sameAt q w (snd (writeFileSync path data w)).
Proof.
  intros Hq. unfold writeFileSync. cbv zeta.
  destruct (fs w !! parsePath path) as [[c|wr|r]|]; try apply sameAt_refl.
  - repeat split. cbn [snd fs setFs]. now rewrite lookup_insert_ne by congruence.
  - destruct (creatable _ _ _) as [e|[]]; [apply sameAt_refl|].
    repeat split. cbn [snd fs setFs]. now rewrite lookup_insert_ne by congruence.
Qed.

Lemma rmSync_sameAt q path w :
  ~ under (parsePath path) q -> sameAt q w (snd (rmSync path w)).
Proof.
  intros Hq. destruct (rmSync_cases path w) as [[e ->] | ->]; [apply sameAt_refl|].
  repeat split. cbn [snd fs setFs]. rewrite lookup_removed.
  now destruct (decide (under (parsePath path) q)).
Qed.

Lemma rmSyncFile_sameAt q path w :
  q <> parsePath path -> sameAt q w (snd (rmSyncFile path w)).
Proof.
  intros Hq. unfold rmSyncFile. cbv zeta.
  destruct (fs w !! parsePath path) as [[c|wr|r]|]; try apply sameAt_refl.
  destruct (fs w !! parent (parsePath path)) as [[c'|[|]|r]|]; try apply sameAt_refl.
  repeat split. cbn [snd fs setFs]. now rewrite lookup_delete_ne by congruence.
Qed.

Lemma execSyncGitInit_sameAt q path w :
  q <> parsePath path ++ [".git"] -> sameAt q w (snd (execSyncGitInit path w)).
Proof.
  intros Hq. unfold execSyncGitInit. cbv zeta.
  destruct (negb (bool_decide ("git" ∈ installed w))); [apply sameAt_refl|].
  destruct (fs w !! parsePath path) as [[c|wr|r]|]; try apply sameAt_refl.
  destruct (fs w !! (parsePath path ++ [".git"])) as [[c|wr'|revs]|];
    try apply sameAt_refl.
  - destruct (gitIdentity w); [|apply sameAt_refl].
    repeat split. cbn [snd fs setFs]. now rewrite lookup_insert_ne by congruence.
  - destruct wr; [|apply sameAt_refl]. cbn [gitIdentity setFs].
    destruct (gitIdentity w); repeat split; cbn [snd fs setFs];
      now rewrite ?lookup_insert_ne by congruence.
Qed.

Lemma ensureCache_sameAt q cwd w :
  q <> parsePath (cwd +:+ "/cache") -> sameAt q w (snd (ensureCache cwd w)).
Proof.
  intros Hq. unfold ensureCache. apply tryCatch_sameAt.
  - apply accessSync_sameAt.
  - intros e w1 _. now apply mkdirSync_sameAt.
Qed.

End FrameFacts.

(** ** More on the cache directory and the state repository *)

Module StoreMore.
Import JsString JsStringFacts Host HostFacts DebuggerUtils Samples.
Import StoreFacts FrameFacts.
Local Open Scope host_scope.

Lemma parsePath_cache (cwd : string) :
  parsePath (cwd +:+ "/cache") = parsePath cwd ++ ["cache"].
Proof. apply (parsePath_slash cwd "cache"). Qed.

Lemma rmSync_refused path w :
  is_Some (fs w !! parsePath path) -> ~ removable (fs w) (parsePath path) ->
  rmSync path w = (inl (FsError EACCES "rm" (parsePath path)), w).
Proof.
  intros [n E] R. unfold rmSync. cbv zeta. rewrite E.
  now destruct (decide (removable (fs w) (parsePath path))).
Qed.

Lemma writeFileSync_inv path data w w' :
  writeFileSync path data w = (inr tt, w') ->
  w' = setFs (<[parsePath path := File data]> (fs w)) w
  /\ forall wr, fs w !! parsePath path <> Some (Dir wr).
Proof.
  unfold writeFileSync. cbv zeta.
  destruct (fs w !! parsePath path) as [[c|wr|r]|]; try discriminate.
  - intros [= <-]. split; [reflexivity | discriminate].
  - destruct (creatable _ _ _) as [e|[]]; [discriminate|].
    intros [= <-]. split; [reflexivity | discriminate].
Qed.

Lemma stuck_not_removable f p :
  stuck f p -> is_Some (f !! p) -> ~ removable f p.
Proof.
  intros Hs [n Hn] Hr.
  apply (map_Forall_lookup_1 _ _ _ _ Hs Hn); [reflexivity|].
  now apply (map_Forall_lookup_1 _ _ _ _ Hr Hn).
Qed.

(** What [purgeCache] does, by the cases of the cache directory. *)
Lemma purgeCache_cases (cwd : string) (w : World) :
  let cache := parsePath (cwd +:+ "/cache") in
  exists w',
    purgeCache cwd w = (inr tt, w')
    /\ (forall q, ~ under cache q -> fs w' !! q = fs w !! q)
    /\ (is_Some (fs w !! cache) -> removable (fs w) cache ->
        (forall q, under cache q -> fs w' !! q = None)
        /\ console w' = console w)
    /\ (fs w !! cache = None \/ ~ removable (fs w) cache ->
        w' = logged "Cache didn't exist" w).
Proof.
  intros cache. unfold purgeCache, tryCatch.
  destruct (fs w !! cache) as [n|] eqn:E.
  - destruct (decide (removable (fs w) cache)) as [R|R].
    + rewrite rmSync_succeeds; [|fold cache; rewrite E; eauto | exact R].
      eexists. split; [reflexivity|]. fold cache. cbn [fs setFs console].
      split; [|split].
      * intros q Hq. rewrite lookup_removed.
        now destruct (decide (under cache q)).
      * intros _ _. split; [|reflexivity].
        intros q Hq. rewrite lookup_removed.
        now destruct (decide (under cache q)).
      * intros [H|H]; [discriminate | contradiction].
    + rewrite rmSync_refused; [|fold cache; rewrite E; eauto | exact R].
      eexists. split; [reflexivity|].
      split; [|split]; [reflexivity | contradiction | reflexivity].
  - rewrite rmSync_absent by exact E.
    eexists. split; [reflexivity|].
    split; [|split]; [reflexivity | intros [n H]; discriminate | reflexivity].
Qed.

(** X3: [purgeCache] always returns and never changes an entry outside
    [cwd/cache].  When the cache directory is there and can be unlinked as
    a whole, nothing at or below it is left and nothing is logged; when it
    is missing, or nothing of it can be unlinked, the host stays as it is
    but for one console line. *)
Theorem purgeCache_effect (cwd : string) (w : World) :
  let cache := parsePath (cwd +:+ "/cache") in
  exists w',
    purgeCache cwd w = (inr tt, w')
    /\ (forall q, ~ under cache q -> fs w' !! q = fs w !! q)
    /\ (is_Some (fs w !! cache) -> removable (fs w) cache ->
        (forall q, under cache q -> fs w' !! q = None)
        /\ console w' = console w)
    /\ (fs w !! cache = None \/ stuck (fs w) cache ->
        w' = logged "Cache didn't exist" w).
Proof.
  intros cache.
  destruct (purgeCache_cases cwd w) as (w' & P & Hout & Hgone & Hkept).
  fold cache in Hout, Hgone, Hkept.
  exists w'. split; [exact P|]. split; [exact Hout|]. split; [exact Hgone|].
  intros [H|H]; apply Hkept; [now left|].
  destruct (fs w !! cache) as [n|] eqn:E; [right | now left].
  apply (stuck_not_removable _ _ H). rewrite E. eauto.
Qed.

Lemma purgeCache_effect_witness :
  exists w',
    purgeCache "/ws" cachedWorkspace = (inr tt, w')
    /\ (forall q, under ["ws"; "cache"] q -> fs w' !! q = None)
    /\ console w' = console cachedWorkspace.
Proof.
  destruct (purgeCache_effect "/ws" cachedWorkspace) as (w' & P & _ & R & _).
  exists w'. split; [exact P|].
  apply R.
  - vm_compute. eauto.
  - apply (proj1 (bool_decide_eq_true _)). vm_compute. reflexivity.
Defined.

(** X4: when [writeHevmCommand] returns, [cwd/cache] exists, [cwd/file]
    is a file that holds the command, and no other entry has changed. *)
Theorem writeHevmCommand_written (command file cwd : string) (w w' : World) :
  let cache := parsePath (cwd +:+ "/cache") in
  let target := parsePath (cwd +:+ "/" +:+ file) in
  writeHevmCommand command file cwd w = (inr tt, w') ->
  is_Some (fs w' !! cache)
  /\ fs w' !! target = Some (File command)
  /\ forall q, q <> cache -> q <> target -> fs w' !! q = fs w !! q.
Proof.
  intros cache target H. unfold writeHevmCommand in H.
  apply bind_inr in H as ([] & wB & HB & HW).
  apply writeFileSync_inv in HW as [-> Hnd]. fold target in Hnd |- *.
  cbn [fs setFs].
  assert (HcB : exists n, fs wB !! cache = Some n
                          /\ forall q, q <> cache -> fs wB !! q = fs w !! q).
  { apply ensureCache_inr in HB as [[-> [n Hn]] | (N & P & ->)].
    - fold cache in Hn. eauto.
    - fold cache. exists (Dir true). cbn [fs setFs].
      split; [apply lookup_insert_eq|].
      intros q Hq. now rewrite lookup_insert_ne by congruence. }
  destruct HcB as (n & Hn & Hother).
  repeat split.
  - destruct (decide (target = cache)) as [->|Hne].
    + rewrite lookup_insert_eq. eauto.
    + rewrite lookup_insert_ne by exact Hne. eauto.
  - apply lookup_insert_eq.
  - intros q Hq1 Hq2. rewrite lookup_insert_ne by congruence. now apply Hother.
Qed.

Lemma writeHevmCommand_written_witness :
  let w' := snd (writeHevmCommand "hevm exec" "cache/hevmtemp" "/ws" workspace) in
  is_Some (fs w' !! ["ws"; "cache"])
  /\ fs w' !! ["ws"; "cache"; "hevmtemp"] = Some (File "hevm exec")
  /\ forall q, q <> ["ws"; "cache"] -> q <> ["ws"; "cache"; "hevmtemp"] ->
               fs w' !! q = fs workspace !! q.
Proof.
  intros w'.
  apply (writeHevmCommand_written "hevm exec" "cache/hevmtemp" "/ws" workspace w').
  vm_compute. reflexivity.
Defined.

(** X5: when [cwd/cache] is missing and [cwd] is not a writable directory,
    [writeHevmCommand] throws the error of [mkdirSync] and writes nothing:
    the host is left as it was. *)
Theorem writeHevmCommand_unwritable (command file cwd : string) (w : World) :
  fs w !! parsePath (cwd +:+ "/cache") = None ->
  fs w !! parsePath cwd <> Some (Dir true) ->
  exists code,
    writeHevmCommand command file cwd w
    = (inl (FsError code "mkdir" (parsePath (cwd +:+ "/cache"))), w).
Proof.
  intros Hc Hd. unfold writeHevmCommand, ensureCache, bind, tryCatch.
  rewrite accessSync_absent by exact Hc.
  unfold mkdirSync. cbv zeta. rewrite Hc. unfold creatable.
  rewrite parsePath_cache, parent_snoc.
  destruct (fs w !! parsePath cwd) as [[c|[|]|r]|]; try congruence; eauto.
Qed.

Lemma writeHevmCommand_unwritable_witness :
  exists code,
    writeHevmCommand "hevm exec" "cache/hevmtemp" "/nowhere" workspace
    = (inl (FsError code "mkdir" (parsePath ("/nowhere" +:+ "/cache"))), workspace).
Proof.
  apply (writeHevmCommand_unwritable "hevm exec" "cache/hevmtemp" "/nowhere" workspace).
  - vm_compute. reflexivity.
  - vm_compute. discriminate.
Defined.

(** X6: whether it returns or throws, [resetStateRepo] changes no entry
    other than [cwd/cache] and what lies at or below [cwd/statePath], and
    leaves the PATH, the git identity and the shown messages alone. *)
Theorem resetStateRepo_frame (statePath cwd : string) (w : World) (q : list string) :
  ~ under (parsePath (cwd +:+ "/" +:+ statePath)) q ->
  q <> parsePath (cwd +:+ "/cache") ->
  sameAt q w (snd (resetStateRepo statePath cwd w)).
Proof.
  intros Hq Hc. unfold resetStateRepo. cbv zeta.
  assert (Hfull : q <> parsePath (cwd +:+ "/" +:+ statePath))
    by (intros ->; apply Hq; reflexivity).
  assert (Hgit : q <> parsePath (cwd +:+ "/" +:+ statePath) ++ [".git"])
    by (intros ->; apply Hq, under_snoc).
  apply bind_sameAt; [apply consoleLog_sameAt|]. intros _ w1 _.
  apply bind_sameAt.
  { apply tryCatch_sameAt; [now apply rmSync_sameAt|].
    intros e w2 _. apply consoleLog_sameAt. }
  intros _ w2 _.
  apply bind_sameAt; [now apply ensureCache_sameAt|]. intros _ w3 _.
  apply bind_sameAt; [now apply mkdirSync_sameAt|]. intros _ w4 _.
  apply bind_sameAt; [now apply execSyncGitInit_sameAt|]. intros _ w5 _.
  apply consoleLog_sameAt.
Qed.

Lemma resetStateRepo_frame_witness :
  sameAt ["ws"] workspace
         (snd (resetStateRepo "cache/huff_debug_hevm_state" "/ws" workspace)).
Proof.
  apply (resetStateRepo_frame "cache/huff_debug_hevm_state" "/ws" workspace ["ws"]).
  - apply (proj1 (bool_decide_eq_false _)). vm_compute. reflexivity.
  - vm_compute. discriminate.
Defined.

(** X7: when the cache directory lies at or below the state directory
    (a [statePath] such as [cache], or empty), [resetStateRepo] throws in
    every world. *)
Theorem resetStateRepo_cache_inside (statePath cwd : string) (w : World) :
  wfFs (fs w) ->
  under (parsePath (cwd +:+ "/" +:+ statePath)) (parsePath (cwd +:+ "/cache")) ->
  exists e w', resetStateRepo statePath cwd w = (inl e, w').
Proof.
  intros W U.
  destruct (resetStateRepo statePath cwd w) as [[e|[]] w'] eqn:R; [eauto|].
  destruct (resetStateRepo_inr statePath cwd w w' W R) as (_ & _ & _ & _ & _ & N & _).
  contradiction.
Qed.

Lemma resetStateRepo_cache_inside_witness :
  exists e w', resetStateRepo "cache" "/ws" workspace = (inl e, w').
Proof.
  apply (resetStateRepo_cache_inside "cache" "/ws" workspace).
  - exact workspace_wf.
  - apply (proj1 (bool_decide_eq_true _)). vm_compute. reflexivity.
Defined.

(** X8: when the state directory is there and nothing of it can be
    unlinked, the error of the deletion is swallowed and the reset then
    fails in [mkdirSync] with [EEXIST]; the file system is left as it
    was. *)
Theorem resetStateRepo_undeletable (statePath cwd : string) (w : World) :
  let full := parsePath (cwd +:+ "/" +:+ statePath) in
  is_Some (fs w !! full) -> stuck (fs w) full ->
  is_Some (fs w !! parsePath (cwd +:+ "/cache")) ->
  resetStateRepo statePath cwd w
  = (inl (FsError EEXIST "mkdir" full),
     logged "Cache didn't exist" (logged "Creating state repository..." w)).
Proof.
  intros full Hsome Hstuck Hc.
  pose proof (stuck_not_removable _ _ Hstuck Hsome) as R.
  destruct Hsome as [n Hfull].
  unfold resetStateRepo. cbv zeta.
  erewrite bind_step by reflexivity.
  erewrite bind_step.
  2: { unfold tryCatch. rewrite rmSync_refused; [reflexivity | | exact R].
       cbn [fs logged]. fold full. rewrite Hfull. eauto. }
  erewrite bind_step by (apply ensureCache_present; exact Hc).
  apply bind_throw. unfold mkdirSync. cbv zeta.
  cbn [consoleLog snd fs logged]. fold full. now rewrite Hfull.
Qed.

Lemma resetStateRepo_undeletable_witness :
  resetStateRepo "cache" "/ws" lockedWorkspace
  = (inl (FsError EEXIST "mkdir" ["ws"; "cache"]),
     logged "Cache didn't exist"
            (logged "Creating state repository..." lockedWorkspace)).
Proof.
  apply (resetStateRepo_undeletable "cache" "/ws" lockedWorkspace).
  - vm_compute. eauto.
  - apply (proj1 (bool_decide_eq_true _)). vm_compute. reflexivity.
  - vm_compute. eauto.
Defined.

(** The steps of [resetStateRepo] before git is run: the old tree is
    gone, the cache directory is there, the state directory is new and
    empty. *)
Lemma resetStateRepo_prepared statePath cwd w :
  let full := parsePath (cwd +:+ "/" +:+ statePath) in
  let cache := parsePath (cwd +:+ "/cache") in
  wfFs (fs w) ->
  fs w !! full = None \/ removable (fs w) full ->
  ~ under full cache ->
  is_Some (fs w !! cache) \/ fs w !! parent cache = Some (Dir true) ->
  fs w !! parent full = Some (Dir true)
  \/ (parent full = cache /\ fs w !! cache = None) ->
  full <> [] ->
  exists w3,
    resetStateRepo statePath cwd w
    = (execSyncGitInit (cwd +:+ "/" +:+ statePath) ;;
       consoleLog "Created state repository...") w3
    /\ fs w3 !! full = Some (Dir true)
    /\ (forall q, under full q -> q <> full -> fs w3 !! q = None)
    /\ installed w3 = installed w /\ gitIdentity w3 = gitIdentity w
    /\ wfFs (fs w3).
Proof.
  intros full cache W Hrm HUC HC HP Hne.
  unfold resetStateRepo. cbv zeta.
  erewrite bind_step by reflexivity.
  assert (HA : exists wA,
             tryCatch (rmSync (cwd +:+ "/" +:+ statePath))
                      (fun _ => consoleLog "Cache didn't exist")
                      (logged "Creating state repository..." w) = (inr tt, wA)
             /\ (forall q, under full q -> fs wA !! q = None)
             /\ (forall q, ~ under full q -> fs wA !! q = fs w !! q)
             /\ installed wA = installed w /\ gitIdentity wA = gitIdentity w
             /\ wfFs (fs wA)).
  { destruct (fs w !! full) as [n|] eqn:E.
    - destruct Hrm as [|Hrm]; [discriminate|].
      eexists. split.
      + unfold tryCatch.
        rewrite rmSync_succeeds;
          [reflexivity | exact (mk_is_Some _ _ E) | exact Hrm].
      + cbn [fs setFs logged installed gitIdentity]. fold full.
        repeat split; trivial; try (now apply wfFs_removed); intros q U;
          rewrite lookup_removed; now destruct (decide (under full q)).
    - eexists. split.
      + unfold tryCatch. rewrite rmSync_absent; [reflexivity | exact E].
      + cbn [fs setFs logged consoleLog installed gitIdentity snd].
        repeat split; trivial.
        intros q U. now apply (wfFs_nothing_below _ full). }
  destruct HA as (wA & HA & Hbelow & Hkeep & IA & GA & WA).
  rewrite (bind_step _ _ _ _ _ HA).
  assert (Hcf : cache <> full) by (intros E; apply HUC; rewrite E; reflexivity).
  assert (Hpar : ~ under full (parent full)) by now apply not_under_parent.
  assert (Hpc : ~ under full (parent cache)).
  { intros U. apply HUC. apply under_trans with (parent cache); [exact U|].
    unfold under, parent. destruct (decide (cache = [])) as [->|Hn]; [reflexivity|].
    exists [List.last cache ""]. now apply app_removelast_last. }
  assert (HB : exists wB,
             ensureCache cwd wA = (inr tt, wB)
             /\ fs wB !! full = None
             /\ fs wB !! parent full = Some (Dir true)
             /\ (forall q, under full q -> fs wB !! q = None)
             /\ installed wB = installed wA /\ gitIdentity wB = gitIdentity wA
             /\ wfFs (fs wB)).
  { destruct (fs w !! cache) as [n|] eqn:Ec.
    - exists wA. split.
      + apply ensureCache_present. fold cache. rewrite Hkeep, Ec by exact HUC. eauto.
      + repeat split; trivial.
        * apply Hbelow. reflexivity.
        * destruct HP as [HP | [_ HP]]; [|discriminate].
          now rewrite Hkeep.
    - destruct HC as [[n HC] | HC]; [discriminate|].
      exists (setFs (<[cache := Dir true]> (fs wA)) wA). split.
      + unfold ensureCache, tryCatch.
        rewrite accessSync_absent
          by (fold cache; now rewrite Hkeep, Ec by exact HUC).
        apply mkdirSync_succeeds; fold cache.
        * now rewrite Hkeep, Ec by exact HUC.
        * now rewrite Hkeep by exact Hpc.
      + cbn [fs setFs installed gitIdentity]. repeat split; trivial.
        * rewrite lookup_insert_ne by exact Hcf. apply Hbelow. reflexivity.
        * destruct HP as [HP | [HP _]].
          -- destruct (decide (cache = parent full)) as [->|Hn];
               [apply lookup_insert_eq|].
             rewrite lookup_insert_ne by exact Hn. now rewrite Hkeep.
          -- rewrite HP. apply lookup_insert_eq.
        * intros q U. rewrite lookup_insert_ne; [now apply Hbelow|].
          intros ->. contradiction.
        * apply wfFs_created; trivial.
          -- now rewrite Hkeep, Ec by exact HUC.
          -- exists true. now rewrite Hkeep by exact Hpc. }
  destruct HB as (wB & HB & NB & PB & BB & IB & GB & WB).
  rewrite (bind_step _ _ _ _ _ HB).
  erewrite bind_step by (apply mkdirSync_succeeds; [exact NB | exact PB]).
  eexists. split; [reflexivity|].
  cbn [fs setFs installed gitIdentity]. fold full.
  repeat split; try congruence.
  - apply lookup_insert_eq.
  - intros q U Hq. rewrite lookup_insert_ne by congruence. now apply BB.
  - apply wfFs_created; eauto.
Qed.

(** X9: the reset is not undone when git fails.  With the directories in
    order but git not on the PATH, [resetStateRepo] throws after it has
    deleted the old state and made the new directory, which is left empty;
    with git on the PATH but no identity configured, it throws and leaves a
    repository without any revision. *)
Theorem resetStateRepo_not_atomic (statePath cwd : string) (w : World) :
  let full := parsePath (cwd +:+ "/" +:+ statePath) in
  let cache := parsePath (cwd +:+ "/cache") in
  wfFs (fs w) ->
  fs w !! full = None \/ removable (fs w) full ->
  ~ under full cache ->
  is_Some (fs w !! cache) \/ fs w !! parent cache = Some (Dir true) ->
  fs w !! parent full = Some (Dir true)
  \/ (parent full = cache /\ fs w !! cache = None) ->
  full <> [] ->
  ("git" ∉ installed w ->
   exists w', resetStateRepo statePath cwd w = (inl (ProcessError 127), w')
              /\ fs w' !! full = Some (Dir true)
              /\ forall q, under full q -> q <> full -> fs w' !! q = None)
  /\ ("git" ∈ installed w -> gitIdentity w = false ->
      exists w', resetStateRepo statePath cwd w = (inl (ProcessError 128), w')
                 /\ fs w' !! full = Some (Dir true)
                 /\ fs w' !! (full ++ [".git"]) = Some (Repo [])).
Proof.
  intros full cache W Hrm HUC HC HP Hne.
  destruct (resetStateRepo_prepared statePath cwd w W Hrm HUC HC HP Hne)
    as (w3 & -> & D & B & I & G & _).
  fold full in D, B.
  assert (Hg : full ++ [".git"] <> full).
  { intros E. apply (f_equal length) in E. rewrite length_app in E. simpl in E. lia. }
  split.
  - intros Hno. exists w3. split; [|auto].
    apply bind_throw. unfold execSyncGitInit. cbv zeta.
    rewrite <- I in Hno. now rewrite (bool_decide_eq_false_2 _ Hno).
  - intros Hgit Hid.
    exists (setFs (<[full ++ [".git"] := Repo []]> (fs w3)) w3).
    split; [|split].
    + apply bind_throw. unfold execSyncGitInit. cbv zeta.
      rewrite <- I in Hgit. rewrite (bool_decide_eq_true_2 _ Hgit). cbn [negb].
      fold full. rewrite D, (B (full ++ [".git"]) (under_snoc _ _) Hg).
      cbn [gitIdentity setFs]. now rewrite G, Hid.
    + cbn [fs setFs]. now rewrite lookup_insert_ne by exact Hg.
    + cbn [fs setFs]. apply lookup_insert_eq.
Qed.

Lemma resetStateRepo_not_atomic_witness :
  (exists w', resetStateRepo "cache/huff_debug_hevm_state" "/ws" gitlessWorkspace
              = (inl (ProcessError 127), w')
              /\ fs w' !! ["ws"; "cache"; "huff_debug_hevm_state"] = Some (Dir true)
              /\ forall q, under ["ws"; "cache"; "huff_debug_hevm_state"] q ->
                           q <> ["ws"; "cache"; "huff_debug_hevm_state"] ->
                           fs w' !! q = None)
  /\ (exists w', resetStateRepo "cache/huff_debug_hevm_state" "/ws" anonymousWorkspace
                 = (inl (ProcessError 128), w')
                 /\ fs w' !! ["ws"; "cache"; "huff_debug_hevm_state"] = Some (Dir true)
                 /\ fs w' !! (["ws"; "cache"; "huff_debug_hevm_state"] ++ [".git"])
                    = Some (Repo [])).
Proof.
  split.
  - destruct (resetStateRepo_not_atomic
                "cache/huff_debug_hevm_state" "/ws" gitlessWorkspace) as [H _].
    + exact workspace_wf.
    + left. vm_compute. reflexivity.
    + apply (proj1 (bool_decide_eq_false _)). vm_compute. reflexivity.
    + right. vm_compute. reflexivity.
    + right. split; vm_compute; reflexivity.
    + vm_compute. discriminate.
    + apply H. apply (proj1 (bool_decide_eq_false _)). vm_compute. reflexivity.
  - destruct (resetStateRepo_not_atomic
                "cache/huff_debug_hevm_state" "/ws" anonymousWorkspace) as [_ H].
    + exact workspace_wf.
    + left. vm_compute. reflexivity.
    + apply (proj1 (bool_decide_eq_false _)). vm_compute. reflexivity.
    + right. vm_compute. reflexivity.
    + right. split; vm_compute; reflexivity.
    + vm_compute. discriminate.
    + apply H; [|reflexivity].
      apply (proj1 (bool_decide_eq_true _)). vm_compute. reflexivity.
Defined.

Lemma parsePath_cache_name (cwd name : string) :
  unbroken isSlash name = true -> name <> "" ->
  parsePath (cwd +:+ "/" +:+ "cache/" +:+ name)
  = parsePath (cwd +:+ "/cache") ++ [name].
Proof.
  intros Hu Hn. rewrite parsePath_slash, parsePath_cache.
  change ("cache/" +:+ name) with ("cache" +:+ "/" +:+ name).
  rewrite parsePath_slash. unfold parsePath at 3.
  rewrite (pieces_unbroken isSlash name Hu Hn).
  now rewrite <- app_assoc.
Qed.

(** X10: the cache directory comes back on demand.  In a writable
    workspace with git set up, [purgeCache] (which takes a state repository
    inside the cache with it) followed by [resetStateRepo] on a directory
    directly inside the cache returns and leaves a repository with one empty
    revision there.  The name of the directory is one path component other
    than [.] and [..]. *)
Theorem purgeCache_then_reset (name cwd : string) (w : World) :
  let cache := parsePath (cwd +:+ "/cache") in
  wfFs (fs w) ->
  fs w !! parsePath cwd = Some (Dir true) ->
  fs w !! cache = None \/ removable (fs w) cache ->
  "git" ∈ installed w -> gitIdentity w = true ->
  unbroken isSlash name = true -> name <> "" ->
  name <> "." -> name <> ".." ->
  exists w1 w2,
    purgeCache cwd w = (inr tt, w1)
    /\ resetStateRepo ("cache/" +:+ name) cwd w1 = (inr tt, w2)
    /\ freshRepo w2 (cache ++ [name]).
Proof.
  intros cache W Hcwd Hrm Hgit Hid Hu Hn _ _.
  destruct (purgeCache_cases cwd w) as (w1 & HP & Hout & Hgone & Hkept).
  fold cache in Hout, Hgone, Hkept.
  assert (Hpc : parent cache = parsePath cwd)
    by (unfold cache; now rewrite parsePath_cache, parent_snoc).
  assert (Hcn : ~ under cache (parsePath cwd)).
  { rewrite <- Hpc. apply not_under_parent. unfold cache.
    rewrite parsePath_cache. now destruct (parsePath cwd). }
  assert (H1 : wfFs (fs w1) /\ installed w1 = installed w
               /\ gitIdentity w1 = gitIdentity w
               /\ forall q, under cache q -> fs w1 !! q = None).
  { destruct (fs w !! cache) as [n|] eqn:E.
    - destruct Hrm as [|Hrm]; [discriminate|].
      destruct (Hgone (mk_is_Some _ _ eq_refl) Hrm) as [Hg _].
      unfold purgeCache, tryCatch in HP.
      rewrite rmSync_succeeds in HP;
        [|fold cache; rewrite E; eauto | exact Hrm].
      injection HP as <-. cbn [fs setFs installed gitIdentity].
      repeat split; trivial. now apply wfFs_removed.
    - rewrite (Hkept (or_introl eq_refl)). cbn [fs logged installed gitIdentity].
      repeat split; trivial.
      intros q U. now apply (wfFs_nothing_below _ cache). }
  destruct H1 as (W1 & I1 & G1 & Hnone).
  pose proof (parsePath_cache_name cwd name Hu Hn) as Hfull. fold cache in Hfull.
  assert (Hlen : ~ under (cache ++ [name]) cache).
  { intros U. apply prefix_length in U. rewrite length_app in U. simpl in U. lia. }
  destruct (resetStateRepo_prepared ("cache/" +:+ name) cwd w1) as
    (w3 & R & D & B & I3 & G3 & _); trivial.
  - left. rewrite Hfull. apply Hnone, under_snoc.
  - now rewrite Hfull.
  - right. fold cache. now rewrite Hpc, Hout.
  - right. rewrite Hfull, parent_snoc. split; [reflexivity|].
    apply Hnone. reflexivity.
  - rewrite Hfull. now destruct cache.
  - rewrite Hfull in D, B.
    assert (Hg : cache ++ [name] ++ [".git"] <> cache ++ [name]).
    { intros E. apply (f_equal length) in E. rewrite !length_app in E.
      simpl in E. lia. }
    assert (R2 : exists w2, resetStateRepo ("cache/" +:+ name) cwd w1 = (inr tt, w2)).
    { rewrite R. erewrite bind_step; [eauto|].
      apply execSyncGitInit_fresh; rewrite ?Hfull; try congruence.
      apply B; [apply under_snoc|].
      rewrite <- app_assoc. exact Hg. }
    destruct R2 as [w2 R2]. exists w1, w2. split; [exact HP|]. split; [exact R2|].
    rewrite <- Hfull.
    now apply (resetStateRepo_inr ("cache/" +:+ name) cwd w1 w2 W1 R2).
Qed.

Lemma purgeCache_then_reset_witness :
  exists w1 w2,
    purgeCache "/ws" cachedWorkspace = (inr tt, w1)
    /\ resetStateRepo ("cache/" +:+ "state") "/ws" w1 = (inr tt, w2)
    /\ freshRepo w2 (parsePath ("/ws" +:+ "/cache") ++ ["state"]).
Proof.
  apply (purgeCache_then_reset "state" "/ws" cachedWorkspace).
  - unfold cachedWorkspace. cbn [fs setFs].
    apply wfFs_created; [exact workspace_wf | vm_compute; reflexivity
                         | exists true; vm_compute; reflexivity].
  - vm_compute. reflexivity.
  - right. apply (proj1 (bool_decide_eq_true _)). vm_compute. reflexivity.
  - apply (proj1 (bool_decide_eq_true _)). vm_compute. reflexivity.
  - reflexivity.
  - reflexivity.
  - discriminate.
  - discriminate.
  - discriminate.
Defined.

End StoreMore.

(** ** Running the engine and the compiler *)

Module ProcessMore.
Import JsString JsStringFacts Host HostFacts DebuggerUtils Samples.
Import DeployCommandFacts StoreFacts DeployFacts FormatEvenBytesFacts.
Local Open Scope host_scope.

Lemma isPlain_not_IFS (c : ascii) : isPlain c = true -> isIFS c = false.
Proof.
  destruct c as [[] [] [] [] [] [] [] []]; vm_compute; congruence.
Qed.

Lemma plainWord_unbroken (s : string) :
  plainWord s = true -> unbroken isIFS s = true.
Proof.
  intros H.
  assert (H' : unbroken (fun c => negb (isPlain c)) s = true).
  { destruct s as [|c s]; [discriminate|].
    unfold plainWord in H. now apply andb_true_iff in H as [_ H]. }
  clear H. induction s as [|c s IH]; [reflexivity|].
  cbn [unbroken] in *. apply andb_true_iff in H' as [Hc Hs].
  rewrite (IH Hs), andb_true_r.
  apply negb_true_iff in Hc. apply negb_false_iff in Hc.
  now rewrite (isPlain_not_IFS c Hc).
Qed.

(** X11: the command reaches the engine through the command file.  Once
    the optional reset and the write of the file have returned,
    [deployContract] runs [hevm] on the words of the command; when [hevm]
    is not on the PATH it throws with status 127, the command file staying
    behind with the command in it.  This is for a command file whose path
    is one word of letters, digits and [/ . _ - +], which the shell does not
    parse into anything else, and for a command without the characters that
    make a word a pattern (asterisk, question mark, opening bracket), which
    the shell would replace by the file names that match. *)
Theorem deployContract_runs_written_command (hevm : list string -> M string)
  (bytecode : string) (config : Config) (cwd : string) (w w0 w1 : World) :
  (if stateChecked config || storageChecked config
   then checkStateRepoExistence (statePath config) cwd
   else ret tt) w = (inr tt, w0) ->
  writeHevmCommand (deployCommand bytecode config cwd)
                   (tempHevmCommandFilename config) cwd w0 = (inr tt, w1) ->
  plainWord (cwd +:+ "/" +:+ tempHevmCommandFilename config) = true ->
  globFree (deployCommand bytecode config cwd) = true ->
  ("hevm" ∈ installed w1 ->
   deployContract hevm bytecode config cwd w
   = hevm (["exec"; "--code"] ++ shellWords bytecode
           ++ ["--address"] ++ shellWords (hevmContractAddress config)
           ++ ["--create"; "--caller"] ++ shellWords (hevmCaller config)
           ++ ["--gas"; "0xffffffff"]
           ++ (if stateChecked config || storageChecked config
               then "--state" :: shellWords (cwd +:+ "/" +:+ statePath config)
               else [])) w1)
  /\ ("hevm" ∉ installed w1 ->
      deployContract hevm bytecode config cwd w = (inl (ProcessError 127), w1)
      /\ fs w1 !! parsePath (cwd +:+ "/" +:+ tempHevmCommandFilename config)
         = Some (File (deployCommand bytecode config cwd))).
Proof.
  intros H0 H1 Hplain _.
  pose proof (plainWord_unbroken _ Hplain) as Hpath.
  assert (Hfile : fs w1 !! parsePath (cwd +:+ "/" +:+ tempHevmCommandFilename config)
                  = Some (File (deployCommand bytecode config cwd))).
  { unfold writeHevmCommand in H1. apply bind_inr in H1 as ([] & wB & _ & HW).
    now apply writeFileSync_inr in HW. }
  assert (Hrun : deployContract hevm bytecode config cwd w
                 = execSyncCat hevm (cwd +:+ "/" +:+ tempHevmCommandFilename config) w1).
  { unfold deployContract. rewrite (bind_step _ _ _ _ _ H0). cbv zeta.
    now rewrite (bind_step _ _ _ _ _ H1). }
  rewrite Hrun. unfold execSyncCat. rewrite Hpath. cbn [negb].
  rewrite Hfile, deployCommand_shellWords. cbn [app String.eqb Ascii.eqb].
  split.
  - intros Hin. rewrite (bool_decide_eq_true_2 _ Hin).
    change (String.eqb "hevm" "hevm") with true. reflexivity.
  - intros Hout. rewrite (bool_decide_eq_false_2 _ Hout).
    rewrite andb_false_r. auto.
Qed.

Lemma deployContract_runs_written_command_witness :
  let w1 := snd (writeHevmCommand (deployCommand "0x6000" plainConfig "/ws")
                                  "cache/hevmtemp" "/ws" workspace) in
  deployContract recordingEngine "0x6000" plainConfig "/ws" workspace
  = recordingEngine
      ["exec"; "--code"; "0x6000";
       "--address"; "0x00000000000000000000000000000000000000EF";
       "--create";
       "--caller"; "0x0000000000000000000000000000000000000420";
       "--gas"; "0xffffffff"] w1.
Proof.
  intros w1.
  apply (proj1 (deployContract_runs_written_command
                  recordingEngine "0x6000" plainConfig "/ws"
                  workspace workspace w1 eq_refl
                  ltac:(vm_compute; reflexivity) eq_refl eq_refl)).
  apply (proj1 (bool_decide_eq_true _)). vm_compute. reflexivity.
Defined.

Lemma compileCommand_shellWords (fileName : string) :
  shellWords ("huffc " +:+ fileName +:+ " --bytecode")
  = "huffc" :: shellWords fileName ++ ["--bytecode"].
Proof.
  change ("huffc " +:+ fileName +:+ " --bytecode")
    with ("huffc" +:+ " " +:+ fileName +:+ " " +:+ "--bytecode").
  now rewrite !shellWords_space.
Qed.

Lemma execSyncIn_huffc (huffc : list string -> string -> M string)
  (fileName cwd : string) (w : World) (wr : bool) :
  fs w !! parsePath cwd = Some (Dir wr) ->
  execSyncIn huffc ("huffc " +:+ fileName +:+ " --bytecode") cwd w
  = if bool_decide ("huffc" ∈ installed w)
    then huffc (shellWords fileName ++ ["--bytecode"]) cwd w
    else (inl (ProcessError 127), w).
Proof.
  intros Hd. unfold execSyncIn. rewrite Hd, compileCommand_shellWords.
  change (String.eqb "huffc" "huffc") with true. reflexivity.
Qed.

(** X12: in an existing directory, for a file name of letters, digits,
    [/ . _ - +] and spaces, [compile] hands the compiler the words of the
    file name (the name is not quoted, so that a space in it makes two
    arguments) followed by [--bytecode].  What the compiler prints comes
    back behind [0x], so that [formatEvenBytes] turns it into a literal of
    even length; what the compiler throws is thrown on; without [huffc] on
    the PATH the compiler is not run and status 127 is thrown. *)
Theorem compile_result (huffc : list string -> string -> M string)
  (sourceDirectory fileName : string) (w : World) (wr : bool) :
  let w1 := logged "Compiling contract..." w in
  let run := huffc (shellWords fileName ++ ["--bytecode"]) sourceDirectory w1 in
  fs w !! parsePath sourceDirectory = Some (Dir wr) ->
  plainText fileName = true ->
  ("huffc" ∈ installed w ->
   (forall out w', run = (inr out, w') ->
      compile huffc sourceDirectory fileName w = (inr ("0x" +:+ out), w')
      /\ Nat.even (String.length (formatEvenBytes ("0x" +:+ out))) = true)
   /\ (forall e w', run = (inl e, w') ->
         compile huffc sourceDirectory fileName w = (inl e, w')))
  /\ ("huffc" ∉ installed w ->
      compile huffc sourceDirectory fileName w = (inl (ProcessError 127), w1)).
Proof.
  intros w1 run Hd _.
  assert (Hc : compile huffc sourceDirectory fileName w
               = bind (execSyncIn huffc ("huffc " +:+ fileName +:+ " --bytecode")
                                  sourceDirectory)
                      (fun bytecode => ret ("0x" +:+ bytecode)) w1).
  { unfold compile. now erewrite bind_step by reflexivity. }
  rewrite Hc. unfold bind. rewrite (execSyncIn_huffc huffc fileName sourceDirectory w1 wr Hd).
  change (installed w1) with (installed w).
  split.
  - intros Hin. rewrite (bool_decide_eq_true_2 _ Hin). fold run.
    split.
    + intros out w' ->. split; [reflexivity|].
      rewrite formatEvenBytes_prefixed.
      destruct (Nat.odd (String.length out)) eqn:E.
      * change (String.length ("0x" +:+ "0" +:+ out)) with (S (S (S (String.length out)))).
        rewrite Nat.even_succ_succ, Nat.even_succ. exact E.
      * change (String.length ("0x" +:+ out)) with (S (S (String.length out))).
        rewrite Nat.even_succ_succ, <- Nat.negb_odd, E. reflexivity.
    + now intros e w' ->.
  - intros Hout. now rewrite (bool_decide_eq_false_2 _ Hout).
Qed.

Lemma writeFileSync_created path data w w' :
  fs w !! parsePath path = None ->
  writeFileSync path data w = (inr tt, w') ->
  fs w !! parent (parsePath path) = Some (Dir true).
Proof.
  intros Hn. unfold writeFileSync. cbv zeta. rewrite Hn.
  destruct (creatable _ _ _) as [e|[]] eqn:C; [discriminate|].
  intros _. now apply creatable_inr in C.
Qed.

(** X13: the temporary file of [compileFromFile].  For a file that was
    not there before and a compiler run that leaves the file system alone:
    when the compiler returns, the file is removed again and the result is
    [0x] followed by the output; when the compiler throws, the error is
    thrown on and the file stays behind with the source in it. *)
Theorem compileFromFile_temp_file (huffc : list string -> string -> M string)
  (source filename cwd : string) (w w1 : World) :
  let target := parsePath (cwd +:+ "/" +:+ filename) in
  let command := "huffc " +:+ filename +:+ " --bytecode" in
  fs w !! target = None ->
  writeHevmCommand source filename cwd w = (inr tt, w1) ->
  (forall out w2,
     execSyncIn huffc command cwd w1 = (inr out, w2) -> fs w2 = fs w1 ->
     exists w3,
       compileFromFile huffc source filename cwd w = (inr ("0x" +:+ out), w3)
       /\ fs w3 !! target = None
       /\ forall q, q <> target -> fs w3 !! q = fs w1 !! q)
  /\ (forall e w2,
        execSyncIn huffc command cwd w1 = (inl e, w2) -> fs w2 = fs w1 ->
        compileFromFile huffc source filename cwd w = (inl e, w2)
        /\ fs w2 !! target = Some (File source)).
Proof.
  intros target command Hnew HW.
  assert (Hw1 : fs w1 !! target = Some (File source)
                /\ fs w1 !! parent target = Some (Dir true)).
  { unfold writeHevmCommand in HW. apply bind_inr in HW as ([] & wB & HB & HW).
    assert (HnB : fs wB !! target = None).
    { apply ensureCache_inr in HB as [[-> _] | (N & P & ->)]; [exact Hnew|].
      cbn [fs setFs].
      destruct (decide (parsePath (cwd +:+ "/cache") = target)) as [E|E].
      - exfalso. unfold writeFileSync in HW. cbv zeta in HW. fold target in HW.
        cbn [fs setFs] in HW. rewrite <- E, lookup_insert_eq in HW. discriminate.
      - now rewrite lookup_insert_ne by exact E. }
    pose proof (writeFileSync_created _ _ _ _ HnB HW) as Hp. fold target in Hp.
    apply StoreMore.writeFileSync_inv in HW as [-> _]. fold target.
    cbn [fs setFs]. split; [apply lookup_insert_eq|].
    rewrite lookup_insert_ne; [exact Hp|].
    intros E. rewrite <- E, HnB in Hp. discriminate. }
  destruct Hw1 as [Hfile Hpar].
  assert (Hc : compileFromFile huffc source filename cwd w
               = bind (execSyncIn huffc command cwd)
                      (fun bytecode =>
                         rmSyncFile (cwd +:+ "/" +:+ filename) ;;
                         ret ("0x" +:+ bytecode)) w1).
  { unfold compileFromFile. now rewrite (bind_step _ _ _ _ _ HW). }
  rewrite Hc. split.
  - intros out w2 Hrun Hfs.
    rewrite (bind_step _ _ _ _ _ Hrun).
    exists (setFs (delete target (fs w2)) w2). split; [|split].
    + erewrite bind_step; [reflexivity|].
      unfold rmSyncFile. cbv zeta. fold target. now rewrite Hfs, Hfile, Hpar.
    + cbn [fs setFs]. apply lookup_delete_eq.
    + intros q Hq. cbn [fs setFs]. rewrite lookup_delete_ne by congruence.
      now rewrite Hfs.
  - intros e w2 Hrun Hfs. split; [now apply bind_throw|].
    now rewrite Hfs.
Qed.

Lemma compile_result_witness :
  compile constantCompiler "/ws" "Token.huff" fullWorkspace
  = (inr ("0x" +:+ "6000"), logged "Compiling contract..." fullWorkspace)
  /\ Nat.even (String.length (formatEvenBytes ("0x" +:+ "6000"))) = true.
Proof.
  destruct (compile_result constantCompiler "/ws" "Token.huff" fullWorkspace true)
    as [H _]; [vm_compute; reflexivity | reflexivity |].
  destruct H as [H _].
  - apply (proj1 (bool_decide_eq_true _)). vm_compute. reflexivity.
  - apply H. reflexivity.
Defined.

Lemma compileFromFile_temp_file_witness :
  (exists w3,
     compileFromFile constantCompiler "#define macro MAIN() = {}"
                     "cache/tmp.huff" "/ws" fullWorkspace
     = (inr ("0x" +:+ "6000"), w3)
     /\ fs w3 !! ["ws"; "cache"; "tmp.huff"] = None)
  /\ (exists w2,
        compileFromFile failingCompiler "#define macro MAIN() = {}"
                        "cache/tmp.huff" "/ws" fullWorkspace
        = (inl (ProcessError 1), w2)
        /\ fs w2 !! ["ws"; "cache"; "tmp.huff"]
           = Some (File "#define macro MAIN() = {}")).
Proof.
  set (w1 := snd (writeHevmCommand "#define macro MAIN() = {}"
                                   "cache/tmp.huff" "/ws" fullWorkspace)).
  split.
  - destruct (compileFromFile_temp_file constantCompiler
                "#define macro MAIN() = {}" "cache/tmp.huff" "/ws"
                fullWorkspace w1) as [H _];
      [vm_compute; reflexivity | vm_compute; reflexivity |].
    destruct (H "6000" w1) as (w3 & A & B & _);
      [vm_compute; reflexivity | reflexivity |].
    exists w3. split; [exact A | exact B].
  - destruct (compileFromFile_temp_file failingCompiler
                "#define macro MAIN() = {}" "cache/tmp.huff" "/ws"
                fullWorkspace w1) as [_ H];
      [vm_compute; reflexivity | vm_compute; reflexivity |].
    destruct (H (ProcessError 1) w1) as (A & B);
      [vm_compute; reflexivity | reflexivity |].
    exists w1. split; [exact A | exact B].
Defined.

End ProcessMore.

(** ** Writing into a purged cache, and the installation checks *)

Module CacheAndChecksMore.
Import JsString JsStringFacts Host HostFacts DebuggerUtils Samples.
Import StoreFacts StoreMore.
Local Open Scope host_scope.

Lemma unbroken_append sep (a b : string) :
  unbroken sep (a +:+ b) = unbroken sep a && unbroken sep b.
Proof.
  induction a as [|c a IH]; [reflexivity|].
  change (String c a +:+ b) with (String c (a +:+ b)). cbn [unbroken].
  rewrite IH. now rewrite andb_assoc.
Qed.

(** X14: only [writeHevmCommand] brings the cache directory back.  After
    [purgeCache] has removed the cache of a writable workspace,
    [writeMacro] with a name inside the cache throws [ENOENT] and changes
    nothing, while [writeHevmCommand] with such a name makes the directory
    again and writes its file.  The name is one path component other than
    [.] and [..]. *)
Theorem write_after_purge (name text cwd : string) (w : World) :
  let cache := parsePath (cwd +:+ "/cache") in
  let w1 := snd (purgeCache cwd w) in
  wfFs (fs w) ->
  fs w !! parsePath cwd = Some (Dir true) ->
  fs w !! cache = None \/ removable (fs w) cache ->
  unbroken isSlash name = true -> name <> "" ->
  name <> "." -> name <> ".." ->
  writeMacro cwd ("cache/" +:+ name) text w1
  = (inl (FsError ENOENT "open" (cache ++ [name +:+ ".huff"])), w1)
  /\ exists w2,
       writeHevmCommand text ("cache/" +:+ name) cwd w1 = (inr tt, w2)
       /\ fs w2 !! cache = Some (Dir true)
       /\ fs w2 !! (cache ++ [name]) = Some (File text).
Proof.
  intros cache w1 W Hcwd Hrm Hu Hn _ _.
  destruct (purgeCache_cases cwd w) as (w1' & HP & Hout & Hgone & Hkept).
  fold cache in Hout, Hgone, Hkept.
  assert (Hw1 : w1 = w1') by (unfold w1; now rewrite HP).
  assert (Hnone : forall q, under cache q -> fs w1 !! q = None).
  { rewrite Hw1. destruct (fs w !! cache) as [n|] eqn:E.
    - destruct Hrm as [|Hrm]; [discriminate|].
      now destruct (Hgone (mk_is_Some _ _ eq_refl) Hrm).
    - rewrite (Hkept (or_introl eq_refl)). cbn [fs logged].
      intros q U. now apply (wfFs_nothing_below _ cache). }
  assert (Hpc : parent cache = parsePath cwd)
    by (unfold cache; now rewrite parsePath_cache, parent_snoc).
  assert (Hd : fs w1 !! parsePath cwd = Some (Dir true)).
  { rewrite Hw1, Hout; [exact Hcwd|].
    rewrite <- Hpc. apply not_under_parent. unfold cache.
    rewrite parsePath_cache. now destruct (parsePath cwd). }
  split.
  - assert (Hu' : unbroken isSlash (name +:+ ".huff") = true)
      by (rewrite unbroken_append, Hu; reflexivity).
    assert (Hn' : name +:+ ".huff" <> "") by (now destruct name).
    pose proof (parsePath_cache_name cwd (name +:+ ".huff") Hu' Hn') as Hp.
    fold cache in Hp.
    unfold writeMacro, writeFileSync. cbv zeta.
    change (cwd +:+ "/" +:+ ("cache/" +:+ name) +:+ ".huff")
      with (cwd +:+ "/" +:+ "cache/" +:+ name +:+ ".huff").
    rewrite Hp, (Hnone _ (under_snoc _ _)). unfold creatable.
    rewrite parent_snoc, (Hnone cache); reflexivity.
  - pose proof (parsePath_cache_name cwd name Hu Hn) as Hp. fold cache in Hp.
    assert (Hne : cache ++ [name] <> cache).
    { intros E. apply (f_equal length) in E. rewrite length_app in E.
      simpl in E. lia. }
    eexists. split; [|split].
    + unfold writeHevmCommand.
      erewrite bind_step.
      2: { unfold ensureCache, tryCatch.
           rewrite accessSync_absent by (fold cache; now apply Hnone).
           apply mkdirSync_succeeds; fold cache.
           - now apply Hnone.
           - now rewrite Hpc. }
      unfold writeFileSync. cbv zeta. rewrite Hp. fold cache. cbn [fs setFs].
      rewrite lookup_insert_ne by congruence.
      rewrite (Hnone _ (under_snoc _ _)). unfold creatable.
      rewrite parent_snoc, lookup_insert_eq. reflexivity.
    + cbn [fs setFs]. rewrite lookup_insert_ne by exact Hne.
      apply lookup_insert_eq.
    + cbn [fs setFs]. apply lookup_insert_eq.
Qed.

Lemma write_after_purge_witness :
  let w1 := snd (purgeCache "/ws" cachedWorkspace) in
  writeMacro "/ws" ("cache/" +:+ "m") "takes: 0" w1
  = (inl (FsError ENOENT "open" (parsePath ("/ws" +:+ "/cache") ++ ["m" +:+ ".huff"])), w1)
  /\ exists w2,
       writeHevmCommand "takes: 0" ("cache/" +:+ "m") "/ws" w1 = (inr tt, w2)
       /\ fs w2 !! parsePath ("/ws" +:+ "/cache") = Some (Dir true)
       /\ fs w2 !! (parsePath ("/ws" +:+ "/cache") ++ ["m"]) = Some (File "takes: 0").
Proof.
  apply (write_after_purge "m" "takes: 0" "/ws" cachedWorkspace).
  - unfold cachedWorkspace. cbn [fs setFs].
    apply wfFs_created; [exact workspace_wf | vm_compute; reflexivity
                         | exists true; vm_compute; reflexivity].
  - vm_compute. reflexivity.
  - right. apply (proj1 (bool_decide_eq_true _)). vm_compute. reflexivity.
  - reflexivity.
  - discriminate.
  - discriminate.
  - discriminate.
Defined.

(** What [registerError] leaves behind: one more shown message, one more
    console line, and nothing else. *)
Lemma registerError_effect (e : exn) (message : string) (w : World) :
  exists w',
    registerError e message w = (inr tt, w')
    /\ shown w' = shown w ++ [message +:+ LF +:+ "Error Message:" +:+ LF +:+ exnText e]
    /\ console w' = console w ++ [exnText e]
    /\ fs w' = fs w /\ installed w' = installed w
    /\ gitIdentity w' = gitIdentity w.
Proof. eexists. split; [reflexivity|]. cbn. auto. Qed.

(** X15: neither of the two checks throws, whatever the lookup of the
    command does.  When the lookup resolves, the check returns [true] and
    shows and logs nothing of its own.  When the lookup is rejected, the
    check returns [false] after it has shown one message and logged one
    line: the message is the pointer to the installation instructions of
    that tool, followed by [Error Message:] and the text of the rejection on
    lines of their own, and the line is the rejection.  The files are left
    alone. *)
Theorem installation_check_diagnostic (w w1 : World) :
  (forall found, commandExists "hevm" w = (inr found, w1) ->
                 checkHevmInstallation w = (inr true, w1))
  /\ (forall name, commandExists "hevm" w = (inl (CommandNotFound name), w1) ->
        exists w',
          checkHevmInstallation w = (inr false, w')
          /\ shown w' = shown w1 ++ [hevmHint +:+ LF +:+ "Error Message:" +:+ LF
                                    +:+ exnText (CommandNotFound name)]
          /\ console w' = console w1 ++ [exnText (CommandNotFound name)]
          /\ fs w' = fs w1 /\ installed w' = installed w1)
  /\ (forall found, commandExists "huffc" w = (inr found, w1) ->
                    checkHuffcInstallation w = (inr true, w1))
  /\ (forall name, commandExists "huffc" w = (inl (CommandNotFound name), w1) ->
        exists w',
          checkHuffcInstallation w = (inr false, w')
          /\ shown w' = shown w1 ++ [huffcHint +:+ LF +:+ "Error Message:" +:+ LF
                                    +:+ exnText (CommandNotFound name)]
          /\ console w' = console w1 ++ [exnText (CommandNotFound name)]
          /\ fs w' = fs w1 /\ installed w' = installed w1).
Proof.
  split; [|split; [|split]].
  - intros found H. unfold checkHevmInstallation, tryCatch.
    now rewrite (bind_step _ _ _ _ _ H).
  - intros name H. unfold checkHevmInstallation, tryCatch.
    rewrite (bind_throw _ _ _ _ _ H).
    destruct (registerError_effect (CommandNotFound name) hevmHint w1)
      as (w' & R & A & B & C & D & _).
    exists w'. rewrite (bind_step _ _ _ _ _ R). auto.
  - intros found H. unfold checkHuffcInstallation, tryCatch.
    now rewrite (bind_step _ _ _ _ _ H).
  - intros name H. unfold checkHuffcInstallation, tryCatch.
    rewrite (bind_throw _ _ _ _ _ H).
    destruct (registerError_effect (CommandNotFound name) huffcHint w1)
      as (w' & R & A & B & C & D & _).
    exists w'. rewrite (bind_step _ _ _ _ _ R). auto.
Qed.

Lemma installation_check_diagnostic_witness :
  checkHevmInstallation workspace = (inr true, workspace)
  /\ exists w',
       checkHuffcInstallation workspace = (inr false, w')
       /\ shown w' = shown workspace
                     ++ [huffcHint +:+ LF +:+ "Error Message:" +:+ LF
                         +:+ exnText (CommandNotFound "huffc")]
       /\ console w' = console workspace ++ [exnText (CommandNotFound "huffc")]
       /\ fs w' = fs workspace /\ installed w' = installed workspace.
Proof.
  destruct (installation_check_diagnostic workspace workspace)
    as (A & _ & _ & B).
  split.
  - apply (A "hevm"). vm_compute. reflexivity.
  - apply (B "huffc"). vm_compute. reflexivity.
Defined.

(** X16: the aggregate check is the check of [hevm] and nothing more.  In
    every host it returns or throws what [checkHevmInstallation] does,
    with the same answer and the same messages: the function
    [checkHuffcInstallation] in the array counts as [true] and is not run,
    so that no word about [huffc] is ever shown. *)
Theorem checkInstallations_diagnostics (w : World) :
  checkInstallations w = checkHevmInstallation w.
Proof.
  unfold checkInstallations, bind.
  destruct (checkHevmInstallation w) as [[e|[|]] w']; reflexivity.
Qed.

End CacheAndChecksMore.

(** ** More on the webview script *)

Module WebviewMore.
Import JsString Webview Samples WebviewFacts.

Lemma withSelectedFunction_twice e st :
  withSelectedFunction e (withSelectedFunction e st) = withSelectedFunction e st.
Proof. reflexivity. Qed.

(** What [createArgsInputs] leaves when the signature is found and the
    state holds an [argsValues] map. *)
Lemma createArgsInputs_fields value pg table key props st av :
  value <> "" -> varFunctionSelectors pg = Some table ->
  findEntry table value = Some (key, props) ->
  store pg = Some st -> argsValues st = Some av ->
  createArgsInputs value pg
  = (Returned,
     mkPage (Some (withSelectedFunction (Some (key, props)) st))
            (Some table) (Some (key, props)) (dropdown pg) (listeners pg)
            (fieldsFrom (prefill av key) 0 (args props))).
Proof.
  intros Hv Ht Hf Hst Hav. unfold createArgsInputs.
  apply String.eqb_neq in Hv. rewrite Hv, Ht. cbv zeta. rewrite Hf, Hst.
  cbn [spread]. erewrite renderArgs_fields; [|reflexivity|exact Hav].
  reflexivity.
Qed.

(** The state after [createArgsInputs], whatever its outcome: only the
    selected function can have changed. *)
Lemma createArgsInputs_state value pg :
  store (snd (createArgsInputs value pg)) = store pg
  \/ exists e, store (snd (createArgsInputs value pg))
               = Some (withSelectedFunction e (spread (store pg))).
Proof.
  unfold createArgsInputs.
  destruct (String.eqb value ""); [now left|].
  destruct (varFunctionSelectors pg) as [table|]; [|now left].
  cbv zeta. right. exists (findEntry table value).
  destruct (findEntry table value) as [[key props]|]; [|reflexivity].
  now rewrite (proj1 (renderArgs_keeps key (args props) 0 _)).
Qed.

Lemma renderArgs_from_empty key rest i pg pg0 :
  store pg = store pg0 -> varFunctionSelectors pg = varFunctionSelectors pg0 ->
  varSelectedFunction pg = varSelectedFunction pg0 ->
  dropdown pg = dropdown pg0 -> listeners pg = listeners pg0 ->
  inputs pg = inputs pg0 ->
  renderArgs key rest i pg = renderArgs key rest i pg0.
Proof.
  intros. assert (pg = pg0) as -> by (destruct pg, pg0; simpl in *; congruence).
  reflexivity.
Qed.

(** Running [createArgsInputs] a second time on the same value changes
    nothing more. *)
Lemma createArgsInputs_again value pg :
  createArgsInputs value (snd (createArgsInputs value pg))
  = createArgsInputs value pg.
Proof.
  unfold createArgsInputs at 2 3.
  destruct (String.eqb value "") eqn:Ev.
  { cbn [snd]. unfold createArgsInputs. now rewrite Ev. }
  destruct (varFunctionSelectors pg) as [table|] eqn:Ht.
  2: { cbn [snd]. unfold createArgsInputs. now rewrite Ev, Ht. }
  cbv zeta.
  destruct (findEntry table value) as [[key props]|] eqn:Hf.
  - set (pg1 := mkPage (Some (withSelectedFunction (Some (key, props))
                                (spread (store pg))))
                       (Some table) (Some (key, props))
                       (dropdown pg) (listeners pg) []).
    destruct (renderArgs_keeps key (args props) 0 pg1) as (S1 & S2 & S3 & S4 & S5).
    unfold createArgsInputs. rewrite Ev, S3. cbn [varFunctionSelectors pg1].
    cbv zeta. rewrite Hf, S1, S4, S5. reflexivity.
  - cbn [snd]. unfold createArgsInputs. rewrite Ev. cbn [varFunctionSelectors].
    cbv zeta. rewrite Hf. reflexivity.
Qed.

Lemma dispatchClick_once n pg :
  dispatchClick (S n) pg = snd (createArgsInputs (selectValue (dropdown pg)) pg).
Proof.
  revert pg. induction n as [|n IH]; intros pg; [reflexivity|].
  change (dispatchClick (S (S n)) pg)
    with (dispatchClick (S n) (snd (createArgsInputs (selectValue (dropdown pg)) pg))).
  pose proof (createArgsInputs_keeps (selectValue (dropdown pg)) pg) as K.
  cbv zeta in K. destruct K as (_ & D & _).
  rewrite IH, D. now rewrite createArgsInputs_again.
Qed.

(** X17: the click listeners that pile up on the drop-down (one more with
    every table that is received) do no harm: however many of them run, the
    page is left as by a single run of [createArgsInputs]. *)
Theorem click_listeners_harmless (pg : Page) (n m : nat) :
  1 <= n -> 1 <= m ->
  dispatchClick n pg = dispatchClick m pg
  /\ dispatchClick n pg = snd (createArgsInputs (selectValue (dropdown pg)) pg).
Proof.
  intros Hn Hm. destruct n as [|n]; [lia|]. destruct m as [|m]; [lia|].
  now rewrite !dispatchClick_once.
Qed.

Lemma click_listeners_harmless_witness :
  dispatchClick 3 (pageOf typedState) = dispatchClick 1 (pageOf typedState)
  /\ dispatchClick 3 (pageOf typedState)
     = snd (createArgsInputs (selectValue (dropdown (pageOf typedState)))
                             (pageOf typedState)).
Proof. apply (click_listeners_harmless (pageOf typedState) 3 1); lia. Defined.

(** X18: typing into a field is persisted at once.  With an [argsValues]
    map in the state and a function selected, the handler returns, the
    value persisted for that function and field is the typed text, the
    values of all other fields are as before, and the table and the
    selection in the state are untouched. *)
Theorem onInput_persists (pg : Page) (st : WebviewState)
  (av : gmap string (gmap nat string)) (key : string) (props : FnProps)
  (id : nat) (text : string) :
  store pg = Some st -> argsValues st = Some av ->
  varSelectedFunction pg = Some (key, props) ->
  exists pg' st' av',
    onInput id text pg = (Returned, pg')
    /\ store pg' = Some st' /\ argsValues st' = Some av'
    /\ functionSelectors st' = functionSelectors st
    /\ selectedFunction st' = selectedFunction st
    /\ persistedValue av' key id = Some text
    /\ forall k i, (k, i) <> (key, id) ->
                   persistedValue av' k i = persistedValue av k i.
Proof.
  intros Hst Hav Hsel. unfold onInput. cbv zeta.
  cbn [setInputs store varSelectedFunction]. rewrite Hst, Hsel, Hav.
  eexists _, _, _. split; [reflexivity|].
  cbn [setState store withArgsValues argsValues functionSelectors selectedFunction].
  repeat split.
  - unfold persistedValue. rewrite lookup_insert_eq. apply lookup_insert_eq.
  - intros k i Hne. unfold persistedValue.
    destruct (decide (k = key)) as [->|Hk].
    + rewrite lookup_insert_eq.
      rewrite lookup_insert_ne by congruence.
      now destruct (av !! key).
    + now rewrite lookup_insert_ne by congruence.
Qed.

Lemma onInput_persists_witness :
  exists pg' st' av',
    onInput 1 "7" (pageOf typedState) = (Returned, pg')
    /\ store pg' = Some st' /\ argsValues st' = Some av'
    /\ functionSelectors st' = functionSelectors typedState
    /\ selectedFunction st' = selectedFunction typedState
    /\ persistedValue av' "bar" 1 = Some "7"
    /\ forall k i, (k, i) <> ("bar", 1) ->
                   persistedValue av' k i
                   = persistedValue {[ "bar" := {[ 1 := "5" ]} ]} k i.
Proof.
  apply (onInput_persists (pageOf typedState) typedState
           {[ "bar" := {[ 1 := "5" ]} ]} "bar" (mkFn "bar(uint256)" ["uint256"]));
    reflexivity.
Defined.

(** X19: what was typed comes back.  With an [argsValues] map in the
    state, after a non-empty text is typed into field [k+1] of the selected
    function, any other value is selected and the function is selected
    again, field [k+1] holds the typed text. *)
Theorem typed_value_restored (pg : Page) (st : WebviewState)
  (av : gmap string (gmap nat string)) (table : Table)
  (key : string) (props : FnProps) (k : nat) (arg text other : string) :
  store pg = Some st -> argsValues st = Some av ->
  varFunctionSelectors pg = Some table ->
  varSelectedFunction pg = Some (key, props) ->
  findEntry table (fnSig props) = Some (key, props) ->
  fnSig props <> "" -> text <> "" ->
  args props !! k = Some arg ->
  let pg1 := snd (onInput (S k) text pg) in
  let pg2 := snd (createArgsInputs other pg1) in
  let pg3 := snd (createArgsInputs (fnSig props) pg2) in
  inputs pg3 !! k = Some (S k, text)
  /\ length (inputs pg3) = length (args props).
Proof.
  intros Hst Hav Ht Hsel Hf Hsig Htext Harg pg1 pg2 pg3.
  set (av1 := <[key := <[S k := text]> (match av !! key with
                                        | Some m => m
                                        | None => ∅
                                        end)]> av).
  assert (H1 : store pg1 = Some (withArgsValues (Some av1) st)
               /\ varFunctionSelectors pg1 = Some table).
  { unfold pg1, onInput. cbv zeta. cbn [setInputs store varSelectedFunction].
    rewrite Hst, Hsel, Hav. split; [reflexivity | exact Ht]. }
  destruct H1 as [S1 V1].
  assert (H2 : exists st2, store pg2 = Some st2 /\ argsValues st2 = Some av1
                           /\ varFunctionSelectors pg2 = Some table).
  { pose proof (createArgsInputs_keeps other pg1) as K. cbv zeta in K.
    destruct K as (V & _ & _). fold pg2 in V.
    destruct (createArgsInputs_state other pg1) as [E | [e E]]; fold pg2 in E;
      rewrite E, ?S1; eexists; (split; [reflexivity|]); split;
      try reflexivity; congruence. }
  destruct H2 as (st2 & S2 & A2 & V2).
  unfold pg3.
  rewrite (createArgsInputs_fields _ pg2 table key props st2 av1
             Hsig V2 Hf S2 A2).
  cbn [snd inputs]. split; [|apply fieldsFrom_length].
  rewrite (fieldsFrom_lookup _ 0 _ k arg Harg). cbn [Nat.add].
  f_equal. f_equal. unfold prefill, av1.
  rewrite lookup_insert_eq, lookup_insert_eq.
  apply String.eqb_neq in Htext. now rewrite Htext.
Qed.

Lemma typed_value_restored_witness :
  let pg1 := snd (onInput 1 "7" (pageOf typedState)) in
  let pg2 := snd (createArgsInputs "foo()" pg1) in
  let pg3 := snd (createArgsInputs "bar(uint256)" pg2) in
  inputs pg3 !! 0 = Some (1, "7") /\ length (inputs pg3) = 1.
Proof.
  apply (typed_value_restored (pageOf typedState) typedState
           {[ "bar" := {[ 1 := "5" ]} ]} sampleTable
           "bar" (mkFn "bar(uint256)" ["uint256"]) 0 "uint256" "7" "foo()");
    try reflexivity; discriminate.
Defined.

(** X20: without an [argsValues] map in the state, selecting a known
    signature stores the selection and then throws at the first argument,
    so that no field is made; a function without arguments is selected
    without a throw. *)
Theorem createArgsInputs_without_argsValues (pg : Page) (value : string)
  (table : Table) (key : string) (props : FnProps) :
  value <> "" -> varFunctionSelectors pg = Some table ->
  findEntry table value = Some (key, props) ->
  argsValues (spread (store pg)) = None ->
  let r := createArgsInputs value pg in
  (fst r = if decide (args props = []) then Returned else Threw)
  /\ inputs (snd r) = []
  /\ varSelectedFunction (snd r) = Some (key, props)
  /\ store (snd r)
     = Some (withSelectedFunction (Some (key, props)) (spread (store pg))).
Proof.
  intros Hv Ht Hf Hav. unfold createArgsInputs.
  apply String.eqb_neq in Hv. rewrite Hv, Ht. cbv zeta. rewrite Hf.
  destruct (args props) as [|a rest]; [repeat split|].
  cbn [renderArgs store withSelectedFunction argsValues]. rewrite Hav.
  repeat split.
Qed.

Lemma createArgsInputs_without_argsValues_witness :
  let r := createArgsInputs "bar(uint256)" newPanel in
  (fst r = if decide (["uint256"] = []) then Returned else Threw)
  /\ inputs (snd r) = []
  /\ varSelectedFunction (snd r) = Some barEntry
  /\ store (snd r)
     = Some (withSelectedFunction (Some barEntry) (spread (store newPanel))).
Proof.
  apply (createArgsInputs_without_argsValues newPanel "bar(uint256)" sampleTable
           "bar" (mkFn "bar(uint256)" ["uint256"]));
    try reflexivity; discriminate.
Defined.

Lemma findEntry_none (table : Table) (value : string) :
  Forall (fun e : Entry => fnSig (snd e) <> value) table ->
  findEntry table value = None.
Proof.
  unfold findEntry. induction 1 as [|e table He _ IH]; [reflexivity|].
  simpl. apply String.eqb_neq in He. now rewrite He.
Qed.

(** X21: an unknown signature erases the selection.  When the selected
    value is not empty and no entry of the table has it as its signature,
    [createArgsInputs] throws, having set the selected function to
    [undefined] in the script and in the state and emptied the list of
    fields; table and typed values stay. *)
Theorem createArgsInputs_unknown_signature (pg : Page) (value : string)
  (table : Table) :
  value <> "" -> varFunctionSelectors pg = Some table ->
  Forall (fun e : Entry => fnSig (snd e) <> value) table ->
  createArgsInputs value pg
  = (Threw,
     mkPage (Some (withSelectedFunction None (spread (store pg))))
            (Some table) None (dropdown pg) (listeners pg) []).
Proof.
  intros Hv Ht Hall. unfold createArgsInputs.
  apply String.eqb_neq in Hv. rewrite Hv, Ht. cbv zeta.
  now rewrite (findEntry_none table value Hall).
Qed.

Lemma createArgsInputs_unknown_signature_witness :
  createArgsInputs "baz()" (pageOf typedState)
  = (Threw,
     mkPage (Some (withSelectedFunction None typedState))
            (Some sampleTable) None (dropdown (pageOf typedState)) 1 []).
Proof.
  apply (createArgsInputs_unknown_signature (pageOf typedState) "baz()" sampleTable).
  - discriminate.
  - reflexivity.
  - repeat constructor; discriminate.
Defined.

(** *** A panel that starts without a state *)

Lemma createArgsInputs_store_some value pg :
  is_Some (store pg) -> is_Some (store (snd (createArgsInputs value pg))).
Proof.
  intros H. destruct (createArgsInputs_state value pg) as [-> | [e ->]]; eauto.
Qed.

Lemma dispatchClick_store_some n pg :
  is_Some (store pg) -> is_Some (store (dispatchClick n pg)).
Proof.
  revert pg. induction n as [|n IH]; intros pg H; [exact H|].
  apply IH. now apply createArgsInputs_store_some.
Qed.

Lemma createArgsInputs_blank value pg :
  inputs pg = [] -> argsValues (spread (store pg)) = None ->
  let pg' := snd (createArgsInputs value pg) in
  inputs pg' = [] /\ argsValues (spread (store pg')) = None.
Proof.
  intros Hi Hav. unfold createArgsInputs.
  destruct (String.eqb value ""); [auto|].
  destruct (varFunctionSelectors pg) as [table|]; [|auto].
  cbv zeta.
  destruct (findEntry table value) as [[key props]|]; [|auto].
  destruct (args props) as [|a rest]; [auto|].
  cbn [renderArgs store withSelectedFunction argsValues]. rewrite Hav. auto.
Qed.

Lemma dispatchClick_blank n pg :
  inputs pg = [] -> argsValues (spread (store pg)) = None ->
  inputs (dispatchClick n pg) = []
  /\ argsValues (spread (store (dispatchClick n pg))) = None.
Proof.
  revert pg. induction n as [|n IH]; intros pg Hi Hav; [auto|].
  destruct (createArgsInputs_blank (selectValue (dropdown pg)) pg Hi Hav) as [A B].
  now apply IH.
Qed.

Lemma addOptionsToFunctionSelector_blank t sel pg :
  inputs pg = [] -> argsValues (spread (store pg)) = None ->
  let pg' := addOptionsToFunctionSelector t sel pg in
  inputs pg' = [] /\ is_Some (store pg')
  /\ argsValues (spread (store pg')) = None.
Proof.
  intros Hi Hav. unfold addOptionsToFunctionSelector, click. cbv zeta.
  cbn [setDropdown listeners].
  match goal with
  | |- context [dispatchClick ?n ?p] =>
      destruct (dispatchClick_blank n p) as [A B]; [exact Hi | exact Hav |];
      pose proof (dispatchClick_store_some n p) as C
  end.
  split; [exact A|]. split; [|exact B]. apply C. cbn [store]. eauto.
Qed.

Lemma reachable_blank pg :
  Reachable pg ->
  inputs pg = [] /\ is_Some (store pg) /\ argsValues (spread (store pg)) = None.
Proof.
  induction 1 as [|pg data _ IH _|pg k _ IH _|pg id text _ IH _|pg _ IH].
  - now apply addOptionsToFunctionSelector_blank.
  - destruct IH as (A & _ & C). now apply addOptionsToFunctionSelector_blank.
  - destruct IH as (A & B & C). unfold userSelects, click.
    cbn [setDropdown listeners].
    match goal with
    | |- context [dispatchClick ?n ?p] =>
        destruct (dispatchClick_blank n p A C) as [A' C'];
        pose proof (dispatchClick_store_some n p B)
    end.
    auto.
  - destruct IH as (A & [st B] & C). rewrite B in C. cbn [spread] in C.
    unfold onInput. cbv zeta. cbn [setInputs store varSelectedFunction].
    rewrite A, B, C. cbn [map].
    destruct (varSelectedFunction pg) as [[key props]|];
      cbn [snd inputs store spread setInputs]; rewrite ?B; cbn [spread]; eauto.
  - destruct IH as (A & [st B] & C). rewrite B in C. cbn [spread] in C.
    unfold hideAndShow, start. rewrite B. cbv zeta.
    now apply addOptionsToFunctionSelector_blank.
Qed.

(** X22: a panel that is opened without a persisted state never gets an
    [argsValues] map: on every page that the handlers reach from there the
    state holds none, the list of fields is empty, and [Start Debug] posts
    a request without arguments. *)
Theorem new_panel_never_renders (pg : Page) :
  Reachable pg ->
  inputs pg = []
  /\ (exists st, store pg = Some st /\ argsValues st = None)
  /\ prepareDebugSession pg = Some (StartDebug (varSelectedFunction pg) []).
Proof.
  intros H. destruct (reachable_blank pg H) as (A & [st B] & C).
  split; [exact A|]. split.
  - exists st. split; [exact B|]. now rewrite B in C.
  - unfold prepareDebugSession. now rewrite A.
Qed.

Lemma new_panel_never_renders_witness :
  inputs (userSelects 1 newPanel) = []
  /\ (exists st, store (userSelects 1 newPanel) = Some st /\ argsValues st = None)
  /\ prepareDebugSession (userSelects 1 newPanel)
     = Some (StartDebug (varSelectedFunction (userSelects 1 newPanel)) []).
Proof.
  apply (new_panel_never_renders (userSelects 1 newPanel)).
  apply reach_select; [apply reach_load; [apply reach_open|]|].
  - repeat constructor; discriminate.
  - vm_compute. lia.
Defined.

(** *** Receiving a table *)

Lemma createArgsInputs_varSelected value pg table :
  value <> "" -> varFunctionSelectors pg = Some table ->
  varSelectedFunction (snd (createArgsInputs value pg)) = findEntry table value.
Proof.
  intros Hv Ht. unfold createArgsInputs.
  apply String.eqb_neq in Hv. rewrite Hv, Ht. cbv zeta.
  destruct (findEntry table value) as [[key props]|]; [|reflexivity].
  now rewrite (proj1 (proj2 (renderArgs_keeps key (args props) 0 _))).
Qed.

(** X23: a table that arrives selects its first function at once.  After
    a click on [Load interface], for a table whose first signature is not
    empty and has no surplus whitespace, the handler of the message stores
    the table and makes its first entry the selected function, in the script
    and in the state, whatever was selected before. *)
Theorem receiveContractInterface_selects_first (pg : Page) (e0 : Entry)
  (rest : Table) :
  fnSig (snd e0) <> "" -> optionValue (fnSig (snd e0)) = fnSig (snd e0) ->
  let pg' := receiveContractInterface (e0 :: rest) (loadInterfaceClicked pg) in
  varSelectedFunction pg' = Some e0
  /\ store pg'
     = Some (withSelectedFunction (Some e0)
               (withFunctionSelectors (Some (e0 :: rest)) (spread (store pg))))
  /\ varFunctionSelectors pg' = Some (e0 :: rest)
  /\ options (dropdown pg') = signatures (e0 :: rest)
  /\ listeners pg' = S (listeners pg).
Proof.
  intros Hne Hnorm pg'. unfold pg', receiveContractInterface,
    loadInterfaceClicked, addOptionsToFunctionSelector, click.
  cbv zeta. cbn [setDropdown store dropdown listeners inputs
                 varFunctionSelectors varSelectedFunction].
  rewrite fold_addOption. cbn [emptySelect options selectedIndex app].
  rewrite dispatchClick_once.
  match goal with
  | |- context [createArgsInputs ?v ?p] =>
      assert (Hv : v = fnSig (snd e0))
        by (unfold selectValue; cbn; exact Hnorm);
      pose proof (createArgsInputs_keeps v p) as K;
      pose proof (createArgsInputs_varSelected v p (e0 :: rest)) as V;
      pose proof (createArgsInputs_selects v p
                    (withFunctionSelectors (Some (e0 :: rest)) (spread (store pg)))
                    (e0 :: rest) e0) as S
  end.
  cbv zeta in K. rewrite Hv in V, S, K |- *. destruct K as (K1 & K2 & K3).
  assert (Hf : findEntry (e0 :: rest) (fnSig (snd e0)) = Some e0).
  { unfold findEntry. simpl. now rewrite String.eqb_refl. }
  rewrite V, S, K1, K2, K3; try reflexivity; try assumption.
  repeat split. congruence.
Qed.

Lemma receiveContractInterface_selects_first_witness :
  let pg' := receiveContractInterface sampleTable
               (loadInterfaceClicked (pageOf typedState)) in
  varSelectedFunction pg' = Some ("foo", mkFn "foo()" [])
  /\ store pg'
     = Some (withSelectedFunction (Some ("foo", mkFn "foo()" []))
               (withFunctionSelectors (Some sampleTable)
                  (spread (store (pageOf typedState)))))
  /\ varFunctionSelectors pg' = Some sampleTable
  /\ options (dropdown pg') = signatures sampleTable
  /\ listeners pg' = S (listeners (pageOf typedState)).
Proof.
  apply (receiveContractInterface_selects_first (pageOf typedState)
           ("foo", mkFn "foo()" []) [barEntry]).
  - discriminate.
  - reflexivity.
Defined.

(** X24: an empty table clears nothing.  When the table that arrives
    after a click on [Load interface] is empty, the drop-down stays empty
    and the empty table is stored, but the selected function and the fields
    of the list stay as they were, so that [Start Debug] posts the same
    request as before. *)
Theorem receiveContractInterface_empty (pg : Page) :
  let pg' := receiveContractInterface [] (loadInterfaceClicked pg) in
  inputs pg' = inputs pg
  /\ varSelectedFunction pg' = varSelectedFunction pg
  /\ store pg' = Some (withFunctionSelectors (Some []) (spread (store pg)))
  /\ dropdown pg' = emptySelect
  /\ prepareDebugSession pg' = prepareDebugSession pg.
Proof.
  intros pg'. unfold pg', receiveContractInterface, loadInterfaceClicked,
    addOptionsToFunctionSelector, click.
  cbv zeta. cbn [setDropdown store dropdown listeners inputs fold_left
                 varFunctionSelectors varSelectedFunction].
  rewrite dispatchClick_idle by reflexivity.
  repeat split.
Qed.

(** *** The request to start a session *)

Lemma imap_fieldsFrom fill (l : list string) :
  imap (fun i (f : nat * string) => (l !! i, snd f)) (fieldsFrom fill 0 l)
  = imap (fun i arg => (Some arg, fill (S i) arg)) l.
Proof.
  apply list_eq. intros i. rewrite !list_lookup_imap.
  destruct (l !! i) as [arg|] eqn:E.
  - rewrite (fieldsFrom_lookup fill 0 l i arg E). cbn. reflexivity.
  - assert (H : fieldsFrom fill 0 l !! i = None).
    { apply lookup_ge_None. rewrite fieldsFrom_length.
      now apply lookup_ge_None. }
    now rewrite H.
Qed.

(** X25: the request that [Start Debug] posts right after a function is
    selected.  With an [argsValues] map in the state and a signature found
    in the table, the request names the entry found and pairs every argument
    of the function, in order, with the value of its field: the persisted
    value if there is a non-empty one, the name of the argument otherwise. *)
Theorem prepareDebugSession_after_select (pg : Page) (value : string)
  (table : Table) (key : string) (props : FnProps) (st : WebviewState)
  (av : gmap string (gmap nat string)) :
  value <> "" -> varFunctionSelectors pg = Some table ->
  findEntry table value = Some (key, props) ->
  store pg = Some st -> argsValues st = Some av ->
  prepareDebugSession (snd (createArgsInputs value pg))
  = Some (StartDebug (Some (key, props))
            (imap (fun i arg => (Some arg, prefill av key (S i) arg))
                  (args props))).
Proof.
  intros Hv Ht Hf Hst Hav.
  rewrite (createArgsInputs_fields value pg table key props st av Hv Ht Hf Hst Hav).
  unfold prepareDebugSession. cbn [snd inputs varSelectedFunction].
  destruct (fieldsFrom (prefill av key) 0 (args props)) as [|f fs] eqn:E.
  - destruct (args props); [reflexivity | discriminate].
  - rewrite <- E. now rewrite imap_fieldsFrom.
Qed.

Lemma prepareDebugSession_after_select_witness :
  prepareDebugSession (snd (createArgsInputs "bar(uint256)" (pageOf typedState)))
  = Some (StartDebug (Some barEntry)
            (imap (fun i arg => (Some arg,
                                 prefill {[ "bar" := {[ 1 := "5" ]} ]} "bar" (S i) arg))
                  (args (snd barEntry)))).
Proof.
  apply (prepareDebugSession_after_select (pageOf typedState) "bar(uint256)"
           sampleTable "bar" (snd barEntry) typedState
           {[ "bar" := {[ 1 := "5" ]} ]});
    [discriminate | reflexivity | reflexivity | reflexivity | reflexivity].
Defined.

(** *** Showing the panel again *)

Lemma repopulated_shows (table : Table) (sig : string) (e : Entry) :
  optionValue sig = sig -> findEntry table sig = Some e ->
  selectValue (repopulated table (Some e)) = sig.
Proof.
  intros Hnorm Hfind.
  destruct (findEntry_Some table sig e Hfind) as (pre & post & Ht & _ & Hsig).
  assert (Hin : In sig (map optionValue (signatures table))).
  { rewrite <- Hnorm. apply in_map. rewrite Ht. unfold signatures.
    rewrite map_app. apply in_or_app. right. left. exact Hsig. }
  destruct (indexOfValue_found sig (signatures table) Hin) as [j Hj].
  destruct (indexOfValue_lookup _ _ _ Hj) as (t & Hl & Ht').
  unfold repopulated. rewrite fold_addOption.
  unfold setSelectValue, selectValue. cbn [options selectedIndex emptySelect app].
  rewrite Hsig, Hj, Hl. exact Ht'.
Qed.

(** X26: the fields come back with the panel.  When the state the host
    kept holds a table, a selected function that is the entry of its own
    signature in the table, and an [argsValues] map, the script that starts
    when the panel is shown again selects that function in the drop-down and
    draws its fields anew, each with its persisted value if that is not
    empty and with the name of its argument otherwise. *)
Theorem hideAndShow_redraws (pg : Page) (st : WebviewState) (table : Table)
  (key : string) (props : FnProps) (av : gmap string (gmap nat string)) :
  store pg = Some st -> functionSelectors st = Some table ->
  selectedFunction st = Some (key, props) -> argsValues st = Some av ->
  findEntry table (fnSig props) = Some (key, props) ->
  fnSig props <> "" -> optionValue (fnSig props) = fnSig props ->
  inputs (hideAndShow pg) = fieldsFrom (prefill av key) 0 (args props)
  /\ varSelectedFunction (hideAndShow pg) = Some (key, props)
  /\ selectValue (dropdown (hideAndShow pg)) = fnSig props.
Proof.
  intros Hst Ht Hsel Hav Hf Hne Hnorm.
  pose proof (repopulated_shows table (fnSig props) (key, props) Hnorm Hf) as Hshow.
  unfold repopulated in Hshow. cbn [snd] in Hshow.
  unfold hideAndShow, start. rewrite Hst. cbv zeta.
  cbn [freshPage store cleanState functionSelectors selectedFunction
       dropdown listeners inputs].
  rewrite Ht, Hsel.
  unfold addOptionsToFunctionSelector, click. cbv zeta.
  cbn [setDropdown store spread listeners dropdown inputs snd
       varFunctionSelectors varSelectedFunction].
  rewrite dispatchClick_once.
  match goal with
  | |- context [createArgsInputs ?v ?p] =>
      replace v with (fnSig props) by (symmetry; exact Hshow);
      rewrite (createArgsInputs_fields (fnSig props) p table key props
                 (withFunctionSelectors (Some table) st) av
                 Hne eq_refl Hf eq_refl Hav)
  end.
  cbn [snd inputs varSelectedFunction dropdown]. auto.
Qed.

Lemma hideAndShow_redraws_witness :
  inputs (hideAndShow (pageOf typedState))
  = fieldsFrom (prefill {[ "bar" := {[ 1 := "5" ]} ]} "bar") 0
               (args (snd barEntry))
  /\ varSelectedFunction (hideAndShow (pageOf typedState)) = Some barEntry
  /\ selectValue (dropdown (hideAndShow (pageOf typedState))) = "bar(uint256)".
Proof.
  apply (hideAndShow_redraws (pageOf typedState) typedState sampleTable
           "bar" (snd barEntry) {[ "bar" := {[ 1 := "5" ]} ]});
    [reflexivity | reflexivity | reflexivity | reflexivity | reflexivity
    | discriminate | reflexivity].
Defined.

End WebviewMore.
